(** * closevia chat subsystem: event bus, store and command handlers

    A shallow embedding of [handlers/chat_handler.go].  The process-wide
    subscriber map [userStreams.m], the channels it refers to and the
    relational store behind [database.DB] are threaded through every
    operation as an explicit [World].  Each critical section of the Go code
    (the body between [Lock]/[Unlock], a handler body) is one function of
    the world; a Go panic is an explicit [Panic] outcome. *)

From stdpp Require Import gmap list strings sorting.

Local Open Scope Z_scope.

(** ** Values, events and channels *)

(** [time.Time], as an instant; [zero_time] is Go's zero value. *)
Abbreviation Time := Z (only parsing).
Definition zero_time : Time := 0.

(** [[]byte] *)
Abbreviation Bytes := (list Byte.byte) (only parsing).

(** The dynamically typed values the handlers put in a [fiber.Map]. *)
Inductive Value :=
| VInt (n : Z)
| VString (s : string)
| VTime (t : Time).

(** [type sseEvent struct { Type string; Data interface{} }]; [Data] is
    always a [fiber.Map] literal, kept as its list of entries. *)
Record sseEvent := { Type_ : string; Data : list (string * Value) }.

(** A buffered [chan []byte]: queued payloads (oldest first), capacity, and
    whether [close] was called on it. *)
Record Chan := { buf : list Bytes; cap : nat; closed : bool }.

(** [make(chan []byte, n)] *)
Definition make_chan (n : nat) : Chan := {| buf := []; cap := n; closed := false |}.

(** A channel value is a reference: the index of the channel in the heap. *)
Abbreviation chan_ref := nat (only parsing).

(** ** The relational store *)

(** Modelled from the spec: the schema of the [conversations] table is not
    among the sources; a row has the columns the statements of the
    handlers name (the data model's product, buyer and seller
    identifiers, and the row id). *)
Record ConversationRow := {
  conv_id : Z; conv_product_id : Z; conv_buyer_id : Z; conv_seller_id : Z }.

(** Modelled from the spec: the schema of the [messages] table is not among
    the sources; a row has the conversation and sender identifiers, the
    text content, the creation timestamp and the optional read timestamp
    of the data model. *)
Record MessageRow := {
  msg_id : Z; msg_conversation_id : Z; msg_sender_id : Z;
  msg_content : string; msg_created_at : Time; msg_read_at : option Time }.

(** Modelled from the spec: [database.DB] is declared outside the sources;
    the store is the two tables the SQL statements of the handlers touch,
    the counters behind [LastInsertId] and the clock that stamps
    [created_at].  [faults] is the environment's script of store failures
    (the spec's persistence errors): every statement sent to the store
    consumes its head, and fails when the head is [true]; an empty script
    means the store answers every statement. *)
Record Store := {
  conversations : list ConversationRow;
  messages : list MessageRow;
  next_conversation_id : Z;
  next_message_id : Z;
  db_clock : Time;
  faults : list bool }.

(** Instrumentation: the serialisation and delivery work done so far. *)
Inductive Effect :=
| EMarshal (evt : sseEvent)
| ESend (ch : chan_ref) (payload : Bytes)
| EDrop (ch : chan_ref).

Record World := {
  userStreams_m : gmap Z (list chan_ref);
  heap : list Chan;
  db : Store;
  now : Time;
  trace : list Effect }.

Definition set_m (m : gmap Z (list chan_ref)) (w : World) : World :=
  {| userStreams_m := m; heap := heap w; db := db w; now := now w; trace := trace w |}.
Definition set_heap (h : list Chan) (w : World) : World :=
  {| userStreams_m := userStreams_m w; heap := h; db := db w; now := now w; trace := trace w |}.
Definition set_db (d : Store) (w : World) : World :=
  {| userStreams_m := userStreams_m w; heap := heap w; db := d; now := now w; trace := trace w |}.
Definition log (e : Effect) (w : World) : World :=
  {| userStreams_m := userStreams_m w; heap := heap w; db := db w; now := now w;
     trace := trace w ++ [e] |}.

(** [userStreams.m[userID]]: a missing key reads as the nil slice. *)
Definition subs_of (w : World) (userID : Z) : list chan_ref :=
  default [] (userStreams_m w !! userID).

(** ** Outcomes *)

Inductive Outcome (A : Type) :=
| Done (a : A) (w : World)
| Panic (reason : string).
Arguments Done {A} a w.
Arguments Panic {A} reason.

Definition M (A : Type) : Type := World → Outcome A.

Definition ret {A} (a : A) : M A := λ w, Done a w.
Definition bind {A B} (c : M A) (k : A → M B) : M B :=
  λ w, match c w with
       | Done a w' => k a w'
       | Panic r => Panic r
       end.

Notation "'do' x <- c ; k" := (bind c (λ x, k))
  (at level 10, x name, c at level 100, k at level 200).
Notation "c ;; k" := (bind c (λ _, k))
  (at level 100, k at level 200, right associativity).

(** ** Event bus *)

(** Lines 53-57 of [Stream]: [msgCh := make(chan []byte, 32)], then under
    the write lock [userStreams.m[userID] = append(userStreams.m[userID], msgCh)]. *)
Definition register (userID : Z) (w : World) : chan_ref * World :=
  let msgCh := length (heap w) in
  let w1 := set_heap (heap w ++ [make_chan 32]) w in
  (msgCh, set_m (<[userID := subs_of w1 userID ++ [msgCh]]> (userStreams_m w1)) w1).

(** [for i, ch := range subs { if ch == msgCh { ...; break } }]: the index
    at which the loop body fires, if any. *)
Fixpoint index_of (msgCh : chan_ref) (subs : list chan_ref) : option nat :=
  match subs with
  | [] => None
  | ch :: rest =>
      if decide (ch = msgCh) then Some 0%nat
      else S <$> index_of msgCh rest
  end.

(** Lines 61-69: the locked part of the deferred cleanup. *)
Definition deregister (userID : Z) (msgCh : chan_ref) (w : World) : World :=
  let subs := subs_of w userID in
  match index_of msgCh subs with
  | Some i => set_m (<[userID := take i subs ++ drop (S i) subs]> (userStreams_m w)) w
  | None => w
  end.

(** [close(msgCh)]: closing a closed channel panics. *)
Definition close (msgCh : chan_ref) : M unit :=
  λ w, match heap w !! msgCh with
       | Some c =>
           if closed c then Panic "close of closed channel"
           else Done tt (set_heap (<[msgCh := {| buf := buf c; cap := cap c; closed := true |}]> (heap w)) w)
       | None => Panic "close of nil channel"
       end.

(** The deferred function of [Stream], lines 60-71. *)
Definition cleanup (userID : Z) (msgCh : chan_ref) : M unit :=
  λ w, close msgCh (deregister userID msgCh w).

(** [select { case ch <- payload: default: }]: the send is taken when the
    buffer has room, panics on a closed channel, and the default branch is
    taken otherwise (a reference outside the heap behaves as a nil channel). *)
Definition select_send (ch : chan_ref) (payload : Bytes) : M unit :=
  λ w, match heap w !! ch with
       | Some c =>
           if closed c then Panic "send on closed channel"
           else if (length (buf c) <? cap c)%nat
                then Done tt (log (ESend ch payload)
                       (set_heap (<[ch := {| buf := buf c ++ [payload]; cap := cap c; closed := false |}]> (heap w)) w))
                else Done tt (log (EDrop ch) w)
       | None => Done tt (log (EDrop ch) w)
       end.

(** [for _, ch := range subs { select ... }] *)
Fixpoint send_all (subs : list chan_ref) (payload : Bytes) : M unit :=
  match subs with
  | [] => ret tt
  | ch :: rest => select_send ch payload ;; send_all rest payload
  end.

(** [b, ok := <-msgCh] in the body stream writer, when a payload is queued. *)
Definition receive (ch : chan_ref) (w : World) : option (Bytes * World) :=
  match heap w !! ch with
  | Some c =>
      match buf c with
      | b :: rest => Some (b, set_heap (<[ch := {| buf := rest; cap := cap c; closed := closed c |}]> (heap w)) w)
      | [] => None
      end
  | None => None
  end.

(** [for _, x := range l { body }] *)
Fixpoint for_each {A} (l : list A) (body : A → M unit) : M unit :=
  match l with
  | [] => ret tt
  | x :: rest => body x ;; for_each rest body
  end.

(** ** Statements sent to the store *)

Inductive error := sql_ErrNoRows | store_failure.

Definition set_faults (fs : list bool) (d : Store) : Store :=
  {| conversations := conversations d; messages := messages d;
     next_conversation_id := next_conversation_id d;
     next_message_id := next_message_id d;
     db_clock := db_clock d; faults := fs |}.

(** Sending one statement: does the store fail on it? *)
Definition statement (d : Store) : bool * Store :=
  match faults d with
  | [] => (false, d)
  | failed :: fs => (failed, set_faults fs d)
  end.

Definition triple_matches (productID buyerID sellerID : Z) (r : ConversationRow) : bool :=
  bool_decide (conv_product_id r = productID)
  && bool_decide (conv_buyer_id r = buyerID)
  && bool_decide (conv_seller_id r = sellerID).

(** [QueryRow("SELECT id FROM conversations WHERE product_id = ? AND
    buyer_id = ? AND seller_id = ?", ...).Scan(&id)] *)
Definition query_conversation_id (productID buyerID sellerID : Z) (d : Store)
  : (error + Z) * Store :=
  let '(failed, d1) := statement d in
  if failed then (inl store_failure, d1)
  else match find (triple_matches productID buyerID sellerID) (conversations d1) with
       | Some r => (inr (conv_id r), d1)
       | None => (inl sql_ErrNoRows, d1)
       end.

(** [Exec("INSERT INTO conversations (product_id, buyer_id, seller_id)
    VALUES (?, ?, ?)", ...)] followed by [res.LastInsertId()] *)
Definition exec_insert_conversation (productID buyerID sellerID : Z) (d : Store)
  : (error + Z) * Store :=
  let '(failed, d1) := statement d in
  if failed then (inl store_failure, d1)
  else
    let id := next_conversation_id d1 in
    (inr id,
     {| conversations := conversations d1 ++
          [{| conv_id := id; conv_product_id := productID;
              conv_buyer_id := buyerID; conv_seller_id := sellerID |}];
        messages := messages d1;
        next_conversation_id := id + 1;
        next_message_id := next_message_id d1;
        db_clock := db_clock d1; faults := faults d1 |}).

(** [Exec("INSERT INTO messages (conversation_id, sender_id, content)
    VALUES (?, ?, ?)", ...)] followed by [res.LastInsertId()]; the store
    stamps [created_at] and leaves [read_at] null. *)
Definition exec_insert_message (conversationID senderID : Z) (content : string) (d : Store)
  : (error + Z) * Store :=
  let '(failed, d1) := statement d in
  if failed then (inl store_failure, d1)
  else
    let id := next_message_id d1 in
    (inr id,
     {| conversations := conversations d1;
        messages := messages d1 ++
          [{| msg_id := id; msg_conversation_id := conversationID;
              msg_sender_id := senderID; msg_content := content;
              msg_created_at := db_clock d1; msg_read_at := None |}];
        next_conversation_id := next_conversation_id d1;
        next_message_id := id + 1;
        db_clock := db_clock d1; faults := faults d1 |}).

(** [QueryRow("SELECT created_at FROM messages WHERE id = ?", id64).Scan(&createdAt)] *)
Definition query_message_created_at (id64 : Z) (d : Store) : (error + Time) * Store :=
  let '(failed, d1) := statement d in
  if failed then (inl store_failure, d1)
  else match find (λ r, bool_decide (msg_id r = id64)) (messages d1) with
       | Some r => (inr (msg_created_at r), d1)
       | None => (inl sql_ErrNoRows, d1)
       end.

(** [QueryRow("SELECT buyer_id, seller_id FROM conversations WHERE id = ?",
    conversationID).Scan(&buyerID, &sellerID)] *)
Definition query_participants (conversationID : Z) (d : Store) : (error + Z * Z) * Store :=
  let '(failed, d1) := statement d in
  if failed then (inl store_failure, d1)
  else match find (λ r, bool_decide (conv_id r = conversationID)) (conversations d1) with
       | Some r => (inr (conv_buyer_id r, conv_seller_id r), d1)
       | None => (inl sql_ErrNoRows, d1)
       end.

(** [ORDER BY created_at ASC] *)
Fixpoint insert_by_created_at (r : MessageRow) (l : list MessageRow) : list MessageRow :=
  match l with
  | [] => [r]
  | r' :: rest =>
      if (msg_created_at r <? msg_created_at r') then r :: l
      else r' :: insert_by_created_at r rest
  end.

Definition order_by_created_at (l : list MessageRow) : list MessageRow :=
  foldr insert_by_created_at [] l.

(** [Query("SELECT id, conversation_id, sender_id, content, created_at,
    read_at FROM messages WHERE conversation_id = ? ORDER BY created_at
    ASC", convID)] and the [rows.Next()] loop over its result. *)
Definition query_messages (convID : Z) (d : Store) : (error + list MessageRow) * Store :=
  let '(failed, d1) := statement d in
  if failed then (inl store_failure, d1)
  else (inr (order_by_created_at
               (filter (λ r, msg_conversation_id r = convID) (messages d1))), d1).

(** A statement run against [database.DB] from a handler. *)
Definition with_db {A} (q : Store → A * Store) : M A :=
  λ w, let '(a, d) := q (db w) in Done a (set_db d w).

(** ** Requests and responses *)

(** Modelled from the spec: [middleware.GetUserIDFromContext] is declared
    outside the sources and yields the trusted identity of the caller, if
    any.  A [Ctx] is what a handler reads from its [*fiber.Ctx]: that user
    id, the result of [c.BodyParser(&p)] ([None] when it returns an error;
    absent fields are Go zero values), and the route parameter ["id"]. *)
Record Ctx (B : Type) := {
  ctx_user : option Z;
  ctx_body : option B;
  ctx_params_id : string }.
Arguments ctx_user {B} c.
Arguments ctx_body {B} c.
Arguments ctx_params_id {B} c.

Inductive ResponseData :=
| NoData
| ConversationIdData (conversation_id : Z)
| MessagesData (list_ : list MessageRow).

(** Modelled from the spec: [models.APIResponse] is declared outside the
    sources; it is the success/error envelope, with the fields the
    handlers set. *)
Record APIResponse := { Success : bool; Data_ : ResponseData; Error : string }.

(** What a handler returns: one of fiber's error values, or a JSON body
    written with a status code. *)
Inductive Response :=
| ErrUnauthorized
| ErrBadRequest
| ErrNotFound
| ErrForbidden
| JSON (status : Z) (body : APIResponse).

Definition success (data : ResponseData) : Response :=
  JSON 200 {| Success := true; Data_ := data; Error := "" |}.
Definition failure500 (msg : string) : Response :=
  JSON 500 {| Success := false; Data_ := NoData; Error := msg |}.

(** The message rows a response discloses. *)
Definition disclosed_messages (r : Response) : list MessageRow :=
  match r with
  | JSON _ {| Data_ := MessagesData l |} => l
  | _ => []
  end.

Record SendMessageBody := { sm_ConversationID : Z; sm_Content : string }.
Record TypingBody := { ty_ConversationID : Z }.
Record EnsureConversationBody := { ec_ProductID : Z; ec_BuyerID : Z; ec_SellerID : Z }.

Section Handlers.

(** [encoding/json.Marshal] on an [sseEvent], and [strconv.Atoi] with its
    error dropped. *)
Variable json_Marshal : sseEvent → Bytes.
Variable Atoi : string → Z.

(** [publishToUser] *)
Definition publishToUser (userID : Z) (evt : sseEvent) : M unit :=
  λ w, let subs := subs_of w userID in
       if (length subs =? 0)%nat then Done tt w
       else
         let payload := json_Marshal evt in
         send_all subs payload (log (EMarshal evt) w).

(** [publishNotification] *)
Definition publishNotification (userID : Z) (message : string) : M unit :=
  publishToUser userID {| Type_ := "notification"; Data := [("message", VString message)] |}.

(** [ensureConversation] *)
Definition ensureConversation (productID buyerID sellerID : Z) : M (Z * option error) :=
  do r <- with_db (query_conversation_id productID buyerID sellerID);
  match r with
  | inr id => ret (id, None)
  | inl _ =>
      do res <- with_db (exec_insert_conversation productID buyerID sellerID);
      match res with
      | inl err => ret (0, Some err)
      | inr lastID => ret (lastID, None)
      end
  end.

(** [saveMessage] *)
Definition saveMessage (conversationID senderID : Z) (content : string)
  : M (Z * Time * option error) :=
  do res <- with_db (exec_insert_message conversationID senderID content);
  match res with
  | inl err => λ w, Done (0, now w, Some err) w
  | inr id64 =>
      do r <- with_db (query_message_created_at id64);
      let createdAt := match r with inr t => t | inl _ => zero_time end in
      ret (id64, createdAt, None)
  end.

(** [getConversationParticipants] *)
Definition getConversationParticipants (conversationID : Z) : M (list Z) :=
  do r <- with_db (query_participants conversationID);
  match r with
  | inl _ => ret []
  | inr (buyerID, sellerID) => ret [buyerID; sellerID]
  end.

(** [EnsureConversation] *)
Definition EnsureConversation (c : Ctx EnsureConversationBody) : M Response :=
  match ctx_body c with
  | None => ret ErrBadRequest
  | Some p =>
      do r <- ensureConversation (ec_ProductID p) (ec_BuyerID p) (ec_SellerID p);
      let '(id, err) := r in
      match err with
      | Some _ => ret (failure500 "Failed to start conversation")
      | None => ret (success (ConversationIdData id))
      end
  end.

Definition message_event (msgID conversationID userID : Z) (content : string)
    (createdAt : Time) : sseEvent :=
  {| Type_ := "message";
     Data := [("id", VInt msgID);
              ("conversation_id", VInt conversationID);
              ("sender_id", VInt userID);
              ("content", VString content);
              ("created_at", VTime createdAt)] |}.

(** [SendMessage] *)
Definition SendMessage (c : Ctx SendMessageBody) : M Response :=
  match ctx_user c with
  | None => ret ErrUnauthorized
  | Some userID =>
      match ctx_body c with
      | None => ret ErrBadRequest
      | Some p =>
          if bool_decide (sm_ConversationID p = 0) || bool_decide (sm_Content p = "")
          then ret ErrBadRequest
          else
            do r <- saveMessage (sm_ConversationID p) userID (sm_Content p);
            let '(msgID, createdAt, err) := r in
            match err with
            | Some _ => ret (failure500 "Failed to send message")
            | None =>
                do participants <- getConversationParticipants (sm_ConversationID p);
                let evt := message_event msgID (sm_ConversationID p) userID (sm_Content p) createdAt in
                for_each participants (λ pid, publishToUser pid evt) ;;
                ret (success NoData)
            end
      end
  end.

Definition typing_event (conversationID userID : Z) : sseEvent :=
  {| Type_ := "typing";
     Data := [("conversation_id", VInt conversationID); ("user_id", VInt userID)] |}.

(** [Typing] *)
Definition Typing (c : Ctx TypingBody) : M Response :=
  match ctx_user c with
  | None => ret ErrUnauthorized
  | Some userID =>
      match ctx_body c with
      | None => ret ErrBadRequest
      | Some p =>
          do participants <- getConversationParticipants (ty_ConversationID p);
          let evt := typing_event (ty_ConversationID p) userID in
          for_each participants
            (λ pid, if bool_decide (pid = userID) then ret tt
                    else publishToUser pid evt) ;;
          ret (success NoData)
      end
  end.

(** [GetMessages] *)
Definition GetMessages (c : Ctx unit) : M Response :=
  match ctx_user c with
  | None => ret ErrUnauthorized
  | Some userID =>
      let convID := Atoi (ctx_params_id c) in
      do r <- with_db (query_participants convID);
      match r with
      | inl _ => ret ErrNotFound
      | inr (buyerID, sellerID) =>
          if bool_decide (userID ≠ buyerID) && bool_decide (userID ≠ sellerID)
          then ret ErrForbidden
          else
            do rows <- with_db (query_messages convID);
            match rows with
            | inl _ => ret (failure500 "Failed to get messages")
            | inr list_ => ret (success (MessagesData list_))
            end
      end
  end.

End Handlers.

(** ** Sequences of bus operations, and their net effect *)

(** The two critical sections of [Stream] that touch the subscriber map. *)
Inductive bus_op :=
| Register (userID : Z)
| Deregister (userID : Z) (msgCh : chan_ref).

Definition apply_op (w : World) (op : bus_op) : World :=
  match op with
  | Register userID => (register userID w).2
  | Deregister userID msgCh => deregister userID msgCh w
  end.

Definition run_ops (ops : list bus_op) (w : World) : World := foldl apply_op w ops.

(** The net effect of a sequence on one user's set of active handles, in
    the words of the specification: a registration adds the handle it
    hands out ([next], the handles being handed out in order), a
    deregistration of that user's handle takes it out, and operations on
    other users leave the set alone. *)
Fixpoint net_effect (userID : Z) (next : chan_ref) (active : gset chan_ref)
    (ops : list bus_op) : gset chan_ref :=
  match ops with
  | [] => active
  | Register u :: rest =>
      net_effect userID (S next)
        (if decide (u = userID) then {[next]} ∪ active else active) rest
  | Deregister u ch :: rest =>
      net_effect userID next
        (if decide (u = userID) then active ∖ {[ch]} else active) rest
  end.

(** ** Invariant of the bus *)

(** Every registered channel is allocated and open, is listed once, and
    belongs to one user. *)
Record bus_wf (w : World) : Prop := {
  wf_open : ∀ u ch, ch ∈ subs_of w u →
            ∃ c, heap w !! ch = Some c ∧ closed c = false;
  wf_nodup : ∀ u, NoDup (subs_of w u);
  wf_owner : ∀ u1 u2 ch, ch ∈ subs_of w u1 → ch ∈ subs_of w u2 → u1 = u2 }.

(** [c] after [k] more copies of [payload] were queued on it. *)
Definition push (k : nat) (payload : Bytes) (c : Chan) : Chan :=
  {| buf := buf c ++ replicate k payload; cap := cap c; closed := closed c |}.

Definition has_room (c : Chan) : bool := (length (buf c) <? cap c)%nat.

(** [w'] differs from [w] in channel buffers only. *)
Definition same_bus (w w' : World) : Prop :=
  userStreams_m w' = userStreams_m w
  ∧ length (heap w') = length (heap w)
  ∧ ∀ ch c, heap w !! ch = Some c →
      ∃ c', heap w' !! ch = Some c' ∧ closed c' = closed c ∧ cap c' = cap c.

(** What one [select] does to every channel of the heap. *)
Definition after_send (ch : chan_ref) (payload : Bytes) (x : chan_ref) (c : Chan) : Chan :=
  if decide (x = ch) then if has_room c then push 1 payload c else c else c.

(** [w'] is [w] with copies of [payload] queued on channels among
    [targets]: nothing on a channel that is no target or that was full,
    at least one copy on a target that had room. *)
Definition delivers (payload : Bytes) (targets : chan_ref → Prop) (w w' : World) : Prop :=
  userStreams_m w' = userStreams_m w
  ∧ db w' = db w
  ∧ length (heap w') = length (heap w)
  ∧ ∀ ch c, heap w !! ch = Some c →
      ∃ k, heap w' !! ch = Some (push k payload c)
           ∧ (¬ targets ch → k = 0%nat)
           ∧ (has_room c = false → k = 0%nat)
           ∧ (targets ch → has_room c = true → (1 ≤ k)%nat).

(** The channels registered for one of the users [ps]. *)
Definition channels_of (w : World) (ps : list Z) (ch : chan_ref) : Prop :=
  ∃ p, p ∈ ps ∧ ch ∈ subs_of w p.

Definition same_tables (d d' : Store) : Prop :=
  conversations d' = conversations d ∧ messages d' = messages d.

(** No two conversation rows carry the same (product, buyer, seller). *)
Definition triples_unique (rows : list ConversationRow) : Prop :=
  ∀ i j r1 r2, rows !! i = Some r1 → rows !! j = Some r2 →
    conv_product_id r1 = conv_product_id r2 →
    conv_buyer_id r1 = conv_buyer_id r2 →
    conv_seller_id r1 = conv_seller_id r2 → i = j.

Definition no_faults (d : Store) : Prop := faults d = [].

Definition find_conversation (conversationID : Z) (d : Store) : option ConversationRow :=
  find (λ r, bool_decide (conv_id r = conversationID)) (conversations d).

(** The store answers the next [n] statements. *)
Definition answers (n : nat) (d : Store) : Prop :=
  Forall (λ failed, failed = false) (take n (faults d)).

(** Message ids are handed out by the store's counter. *)
Definition message_ids_fresh (d : Store) : Prop :=
  ∀ r, r ∈ messages d → msg_id r < next_message_id d.

(** The row [saveMessage] inserts. *)
Definition new_message (d : Store) (conversationID senderID : Z) (content : string)
  : MessageRow :=
  {| msg_id := next_message_id d; msg_conversation_id := conversationID;
     msg_sender_id := senderID; msg_content := content;
     msg_created_at := db_clock d; msg_read_at := None |}.

Definition is_participant (userID : Z) (row : ConversationRow) : Prop :=
  userID = conv_buyer_id row ∨ userID = conv_seller_id row.

(** ** Reachable worlds *)

Definition init_world (d : Store) (t : Time) : World :=
  {| userStreams_m := ∅; heap := []; db := d; now := t; trace := [] |}.

Section Reachable.

Variable json_Marshal : sseEvent → Bytes.
Variable Atoi : string → Z.

(** One atomic step of the process: a critical section of a [Stream]
    connection, a receive by a stream writer, or a whole handler.  A
    connection closes its channel after it unlinked it. *)
Inductive step : World → World → Prop :=
| step_register u w : step w (register u w).2
| step_deregister u ch w : ch ∈ subs_of w u → step w (deregister u ch w)
| step_close ch w w' :
    (∀ u, ch ∉ subs_of w u) → close ch w = Done tt w' → step w w'
| step_receive ch b w w' : receive ch w = Some (b, w') → step w w'
| step_publishNotification u msg w w' :
    publishNotification json_Marshal u msg w = Done tt w' → step w w'
| step_EnsureConversation c r w w' : EnsureConversation c w = Done r w' → step w w'
| step_SendMessage c r w w' : SendMessage json_Marshal c w = Done r w' → step w w'
| step_Typing c r w w' : Typing json_Marshal c w = Done r w' → step w w'
| step_GetMessages c r w w' : GetMessages Atoi c w = Done r w' → step w w'.

Inductive reachable : World → Prop :=
| reachable_init d t : reachable (init_world d t)
| reachable_step w w' : reachable w → step w w' → reachable w'.

End Reachable.

(** ** Example worlds *)

Definition example_marshal (evt : sseEvent) : Bytes :=
  String.list_byte_of_string (Type_ evt).

Definition example_atoi (s : string) : Z := if String.eqb s "1" then 1 else 0.

(** One conversation, about product 5, between buyer 1 and seller 2. *)
Definition example_store : Store :=
  {| conversations :=
       [{| conv_id := 1; conv_product_id := 5; conv_buyer_id := 1; conv_seller_id := 2 |}];
     messages := [];
     next_conversation_id := 2; next_message_id := 1;
     db_clock := 100; faults := [] |}.

Definition example_ops : list bus_op := [Register 1; Register 2; Register 2].

(** User 1 has one open stream (channel 0), user 2 has two (1 and 2). *)
Definition example_world : World := run_ops example_ops (init_world example_store 7).

Definition example_send_ctx : Ctx SendMessageBody :=
  {| ctx_user := Some 1;
     ctx_body := Some {| sm_ConversationID := 1; sm_Content := "hi" |};
     ctx_params_id := "" |}.

Definition empty_send_ctx : Ctx SendMessageBody :=
  {| ctx_user := Some 1;
     ctx_body := Some {| sm_ConversationID := 1; sm_Content := "" |};
     ctx_params_id := "" |}.

(** User 3 is neither the buyer nor the seller of conversation 1. *)
Definition stranger_send_ctx : Ctx SendMessageBody :=
  {| ctx_user := Some 3;
     ctx_body := Some {| sm_ConversationID := 1; sm_Content := "psst" |};
     ctx_params_id := "" |}.

Definition example_typing_ctx : Ctx TypingBody :=
  {| ctx_user := Some 1; ctx_body := Some {| ty_ConversationID := 1 |};
     ctx_params_id := "" |}.


Definition stranger_get_ctx : Ctx unit :=
  {| ctx_user := Some 3; ctx_body := None; ctx_params_id := "1" |}.

Definition world_of {A} (o : Outcome A) (otherwise : World) : World :=
  match o with
  | Done _ w => w
  | Panic _ => otherwise
  end.

Definition example_world_after_send : World :=
  world_of (SendMessage example_marshal example_send_ctx example_world) example_world.

Definition stranger_world_after_send : World :=
  world_of (SendMessage example_marshal stranger_send_ctx example_world) example_world.

(** ** The rest of the stream endpoint *)

(** What [Stream] reads from its [*fiber.Ctx]: the user id left by the
    middleware, if any, and the query parameter ["token"] (empty when
    absent). *)
Record StreamCtx := { sc_user : option Z; sc_query_token : string }.

(** [data: <payload>\n\n], the frame the stream writer writes for one payload. *)
Definition frame (b : Bytes) : Bytes :=
  String.list_byte_of_string "data: " ++ b ++ [Byte.x0a; Byte.x0a].

Inductive WriterStatus :=
| WriterWaiting   (* blocked in [<-msgCh] on an open, empty channel *)
| WriterFinished. (* left the loop: the channel is closed and drained *)

(** The loop of the body stream writer, lines 74-83, run for at most
    [fuel] receives: a queued payload is framed and written, a closed and
    empty channel ends the loop, an open and empty one (or a nil one)
    leaves the writer waiting. *)
Fixpoint writer_loop (fuel : nat) (msgCh : chan_ref) (out : Bytes) (w : World)
  : Bytes * WriterStatus * World :=
  match fuel with
  | O => (out, WriterWaiting, w)
  | S fuel' =>
      match receive msgCh w with
      | Some (b, w') => writer_loop fuel' msgCh (out ++ frame b) w'
      | None =>
          match heap w !! msgCh with
          | Some q => (out, if closed q then WriterFinished else WriterWaiting, w)
          | None => (out, WriterWaiting, w)
          end
      end
  end.

Section StreamHandler.

(** [middleware.AuthMiddleware()(c)] followed by
    [middleware.GetUserIDFromContext(c)], as a function of the
    [Authorization] header: the user id it leaves in the context, [None]
    when it returns an error or leaves none. *)
Variable AuthMiddleware : string → option Z.

(** Lines 33-48 of [Stream]. *)
Definition Stream_authenticate (c : StreamCtx) : option Z :=
  match sc_user c with
  | Some userID => Some userID
  | None =>
      let token := sc_query_token c in
      if bool_decide (token = "") then None
      else AuthMiddleware ("Bearer " ++ token)
  end.

(** [Stream]: [inl] is the error it returns, [inr msgCh] is [return nil]
    with the body stream writer installed on [msgCh].
    [SetBodyStreamWriter] only installs the writer, so the deferred
    cleanup runs when [Stream] returns. *)
Definition Stream (c : StreamCtx) : M (Response + chan_ref) :=
  match Stream_authenticate c with
  | None => ret (inl ErrUnauthorized)
  | Some userID =>
      λ w, let '(msgCh, w1) := register userID w in
           (cleanup userID msgCh ;; ret (inr msgCh)) w1
  end.

End StreamHandler.

(** ** [GetConversations] *)




Section Conversations.

(** The [created_at] and [updated_at] columns of a conversation row; no
    other statement of the handlers reads or writes them. *)
Variable conv_created_at : ConversationRow → Time.
Variable conv_updated_at : ConversationRow → Time.




End Conversations.

(** ** Further invariants *)

(** Row ids are handed out by the store's counters, each once. *)
Record store_wf (d : Store) : Prop := {
  swf_conv_fresh : ∀ r, r ∈ conversations d → conv_id r < next_conversation_id d;
  swf_conv_nodup : NoDup (conv_id <$> conversations d);
  swf_msg_fresh : message_ids_fresh d;
  swf_msg_nodup : NoDup (msg_id <$> messages d) }.

(** No channel holds more payloads than its capacity, and every channel
    was made with capacity 32. *)
Definition buffers_bounded (w : World) : Prop :=
  ∀ ch q, heap w !! ch = Some q → cap q = 32%nat ∧ (length (buf q) ≤ cap q)%nat.

(** Publishing the events [evts] to one user, one after the other. *)
Definition publish_all (json_Marshal : sseEvent → Bytes) (userID : Z)
    (evts : list sseEvent) : M unit :=
  for_each evts (λ evt, publishToUser json_Marshal userID evt).

Definition by_created_at (a b : MessageRow) : Prop := msg_created_at a ≤ msg_created_at b.

(** ** More example inputs *)

(** A middleware that knows one token, of user 2. *)
Definition example_auth (header : string) : option Z :=
  if String.eqb header "Bearer tok" then Some 2 else None.

Definition token_stream_ctx : StreamCtx := {| sc_user := None; sc_query_token := "tok" |}.
Definition anonymous_stream_ctx : StreamCtx := {| sc_user := None; sc_query_token := "" |}.

Definition example_events : list sseEvent := [typing_event 1 1; typing_event 1 2].

(** The example world with a store that fails on the next statement and
    answers the one after. *)
Definition faulty_world : World :=
  set_db (set_faults [true; false] example_store) example_world.

Definition seller_get_ctx : Ctx unit :=
  {| ctx_user := Some 2; ctx_body := None; ctx_params_id := "1" |}.



(** The example world with one more stream, of user 3, who takes part in
    no conversation (channel 3). *)
Definition outsider_world : World := (register 3 example_world).2.

Definition outsider_world_after_send : World :=
  world_of (SendMessage example_marshal example_send_ctx outsider_world) outsider_world.

Definition outsider_world_after_typing : World :=
  world_of (Typing example_marshal example_typing_ctx outsider_world) outsider_world.


Definition example_conversation : ConversationRow :=
  {| conv_id := 1; conv_product_id := 5; conv_buyer_id := 1; conv_seller_id := 2 |}.

(** ** Basic facts about the subscriber map *)

Lemma subs_of_set_heap h w u : subs_of (set_heap h w) u = subs_of w u.
Proof. reflexivity. Qed.

Lemma subs_of_set_db d w u : subs_of (set_db d w) u = subs_of w u.
Proof. reflexivity. Qed.

Lemma subs_of_log e w u : subs_of (log e w) u = subs_of w u.
Proof. reflexivity. Qed.

Lemma subs_of_insert (m : gmap Z (list nat)) w u u' l :
  userStreams_m w = m →
  subs_of (set_m (<[u := l]> m) w) u' = if decide (u = u') then l else subs_of w u'.
Proof.
  intros <-. unfold subs_of; simpl. rewrite lookup_insert.
  destruct (decide (u = u')); done.
Qed.

Lemma subs_of_same_m w w' u :
  userStreams_m w' = userStreams_m w → subs_of w' u = subs_of w u.
Proof. unfold subs_of. by intros ->. Qed.

Lemma register_subs u w u' :
  subs_of (register u w).2 u' =
  if decide (u = u') then subs_of w u ++ [length (heap w)] else subs_of w u'.
Proof. unfold register; simpl. by rewrite subs_of_insert. Qed.

Lemma register_heap u w : heap (register u w).2 = heap w ++ [make_chan 32].
Proof. reflexivity. Qed.

Lemma register_handle u w : (register u w).1 = length (heap w).
Proof. reflexivity. Qed.

(** The loop of the cleanup stops at the first occurrence. *)
Lemma index_of_Some ch (l : list nat) i :
  index_of ch l = Some i →
  ∃ l1 l2, l = l1 ++ ch :: l2 ∧ length l1 = i ∧ ch ∉ l1.
Proof.
  revert i. induction l as [|x l IH]; intros i; simpl; [done|].
  destruct (decide (x = ch)) as [->|Hne].
  - intros [= <-]. exists [], l. split_and!; [done|done|]. apply not_elem_of_nil.
  - destruct (index_of ch l) as [j|] eqn:E; simpl; [|done].
    intros [= <-]. destruct (IH j eq_refl) as (l1 & l2 & -> & Hlen & Hnin).
    exists (x :: l1), l2. split_and!; [done|by simpl; f_equal|].
    rewrite elem_of_cons. intros [->|?]; done.
Qed.

Lemma index_of_None ch (l : list nat) : index_of ch l = None ↔ ch ∉ l.
Proof.
  induction l as [|x l IH]; simpl.
  - split; [intros _; apply not_elem_of_nil|done].
  - destruct (decide (x = ch)) as [->|Hne].
    + split; [done|]. intros H. exfalso. apply H. left.
    + rewrite not_elem_of_cons. destruct (index_of ch l); simpl.
      * split; [done|]. intros [_ H]. by apply IH in H.
      * split; [|done]. intros _. split; [done|]. by apply IH.
Qed.

Lemma cut_middle (l1 l2 : list nat) ch :
  take (length l1) (l1 ++ ch :: l2) ++ drop (S (length l1)) (l1 ++ ch :: l2) = l1 ++ l2.
Proof.
  rewrite take_app_length. f_equal.
  replace (S (length l1)) with (length (l1 ++ [ch])) by (rewrite length_app; simpl; lia).
  by rewrite (cons_middle ch l1 l2), app_assoc, drop_app_length.
Qed.

Lemma deregister_subs u ch w u' :
  subs_of (deregister u ch w) u' =
  if decide (u = u') then
    match index_of ch (subs_of w u) with
    | Some i => take i (subs_of w u) ++ drop (S i) (subs_of w u)
    | None => subs_of w u
    end
  else subs_of w u'.
Proof.
  unfold deregister. destruct (index_of ch (subs_of w u)) eqn:E.
  - by rewrite subs_of_insert.
  - destruct (decide (u = u')); by subst.
Qed.

Lemma deregister_heap u ch w : heap (deregister u ch w) = heap w.
Proof. unfold deregister. by destruct (index_of _ _). Qed.

(** Membership after the cleanup, for a list without duplicates. *)
Lemma deregister_elem_of u ch w x :
  NoDup (subs_of w u) →
  x ∈ subs_of (deregister u ch w) u ↔ x ∈ subs_of w u ∧ x ≠ ch.
Proof.
  intros Hnd. rewrite deregister_subs. destruct (decide (u = u)); [|done].
  destruct (index_of ch (subs_of w u)) as [i|] eqn:E.
  - apply index_of_Some in E as (l1 & l2 & Hl & <- & Hnin).
    rewrite Hl in Hnd |- *. rewrite cut_middle.
    apply NoDup_app in Hnd as (_ & Hdisj & Hnd2). apply NoDup_cons in Hnd2 as [Hnin2 _].
    rewrite !elem_of_app, elem_of_cons. split.
    + intros [H|H]; (split; [tauto|intros ->; done]).
    + intros [[H|[->|H]] Hne]; tauto.
  - apply index_of_None in E. split; [|tauto].
    intros H. split; [done|]. intros ->. done.
Qed.

Lemma deregister_NoDup u ch w u' :
  NoDup (subs_of w u') → NoDup (subs_of (deregister u ch w) u').
Proof.
  intros Hnd. rewrite deregister_subs. destruct (decide (u = u')) as [->|]; [|done].
  destruct (index_of ch (subs_of w u')) as [i|] eqn:E; [|done].
  apply index_of_Some in E as (l1 & l2 & Hl & <- & Hnin).
  rewrite Hl in Hnd |- *. rewrite cut_middle.
  apply NoDup_app in Hnd as (H1 & Hdisj & Hnd2). apply NoDup_cons in Hnd2 as [Hnin2 H2].
  apply NoDup_app. split_and!; [done| |done].
  intros x Hx Hx2. apply (Hdisj x Hx). by right.
Qed.

Lemma deregister_subseteq u ch w u' x :
  x ∈ subs_of (deregister u ch w) u' → x ∈ subs_of w u'.
Proof.
  rewrite deregister_subs. destruct (decide (u = u')) as [->|]; [|done].
  destruct (index_of ch (subs_of w u')) as [i|] eqn:E; [|done].
  apply index_of_Some in E as (l1 & l2 & Hl & <- & Hnin).
  rewrite Hl, cut_middle, !elem_of_app, elem_of_cons. tauto.
Qed.

(** Deregistering a handle that is not registered changes nothing. *)
Lemma deregister_absent u ch w : ch ∉ subs_of w u → deregister u ch w = w.
Proof. intros H. unfold deregister. apply index_of_None in H. by rewrite H. Qed.

(** ** The invariant is kept by the critical sections of [Stream] *)

Lemma bus_wf_init d t : bus_wf (init_world d t).
Proof.
  split; unfold subs_of; simpl.
  - intros u ch. rewrite lookup_empty; simpl. by intros ?%elem_of_nil.
  - intros u. rewrite lookup_empty. apply NoDup_nil_2.
  - intros u1 u2 ch. rewrite lookup_empty; simpl. by intros ?%elem_of_nil.
Qed.

Lemma wf_allocated w u ch : bus_wf w → ch ∈ subs_of w u → (ch < length (heap w))%nat.
Proof.
  intros Hwf Hin. destruct (wf_open w Hwf u ch Hin) as (c & Hc & _).
  by apply lookup_lt_Some in Hc.
Qed.

Lemma bus_wf_register u w : bus_wf w → bus_wf (register u w).2.
Proof.
  intros Hwf. split.
  - intros u' ch. rewrite register_subs, register_heap.
    destruct (decide (u = u')) as [<-|Hne].
    + rewrite elem_of_app, list_elem_of_singleton. intros [Hin| ->].
      * destruct (wf_open w Hwf u ch Hin) as (c & Hc & Ho).
        exists c. split; [|done]. by apply lookup_app_l_Some.
      * exists (make_chan 32). split; [|done].
        rewrite lookup_app_r by lia. by rewrite Nat.sub_diag.
    + intros Hin. destruct (wf_open w Hwf u' ch Hin) as (c & Hc & Ho).
      exists c. split; [|done]. by apply lookup_app_l_Some.
  - intros u'. rewrite register_subs. destruct (decide (u = u')) as [<-|Hne].
    + apply NoDup_app. split_and!.
      * apply (wf_nodup w Hwf).
      * intros x Hx ->%list_elem_of_singleton.
        apply (wf_allocated w u _ Hwf) in Hx. lia.
      * apply NoDup_singleton.
    + apply (wf_nodup w Hwf).
  - intros u1 u2 ch. rewrite !register_subs.
    destruct (decide (u = u1)) as [<-|H1], (decide (u = u2)) as [<-|H2]; [done| | |].
    + rewrite elem_of_app, list_elem_of_singleton. intros [Hin| ->] Hin2.
      * apply (wf_owner w Hwf _ _ ch Hin Hin2).
      * apply (wf_allocated w u2 _ Hwf) in Hin2. lia.
    + rewrite elem_of_app, list_elem_of_singleton. intros Hin1 [Hin| ->].
      * apply (wf_owner w Hwf _ _ ch Hin1 Hin).
      * apply (wf_allocated w u1 _ Hwf) in Hin1. lia.
    + apply (wf_owner w Hwf).
Qed.

Lemma bus_wf_deregister u ch w : bus_wf w → bus_wf (deregister u ch w).
Proof.
  intros Hwf. split.
  - intros u' x Hin%deregister_subseteq. rewrite deregister_heap.
    apply (wf_open w Hwf u' x Hin).
  - intros u'. apply deregister_NoDup, (wf_nodup w Hwf).
  - intros u1 u2 x H1%deregister_subseteq H2%deregister_subseteq.
    apply (wf_owner w Hwf _ _ x H1 H2).
Qed.

Lemma bus_wf_apply_op op w : bus_wf w → bus_wf (apply_op w op).
Proof. destruct op; [apply bus_wf_register | apply bus_wf_deregister]. Qed.

Lemma bus_wf_run_ops ops w : bus_wf w → bus_wf (run_ops ops w).
Proof.
  revert w. induction ops as [|op ops IH]; intros w Hwf; [done|].
  apply IH, bus_wf_apply_op, Hwf.
Qed.

(** One operation against the specification's bookkeeping. *)
Lemma apply_op_active op w u :
  bus_wf w →
  list_to_set (subs_of (apply_op w op) u) =@{gset nat}
  match op with
  | Register u' =>
      if decide (u' = u) then {[length (heap w)]} ∪ list_to_set (subs_of w u)
      else list_to_set (subs_of w u)
  | Deregister u' ch =>
      if decide (u' = u) then list_to_set (subs_of w u) ∖ {[ch]}
      else list_to_set (subs_of w u)
  end.
Proof.
  intros Hwf. destruct op as [u'|u' ch]; cbn [apply_op].
  - rewrite register_subs. destruct (decide (u' = u)) as [->|]; [|done].
    rewrite list_to_set_app_L; simpl.
    rewrite (right_id_L ∅ (∪)). apply (comm_L (∪)).
  - destruct (decide (u' = u)) as [->|Hne].
    + apply set_eq. intros x. rewrite elem_of_list_to_set, elem_of_difference,
        elem_of_list_to_set, elem_of_singleton.
      apply deregister_elem_of, (wf_nodup w Hwf).
    + rewrite deregister_subs. by destruct (decide (u' = u)).
Qed.

Lemma apply_op_next op w :
  length (heap (apply_op w op)) =
  match op with Register _ => S (length (heap w)) | Deregister _ _ => length (heap w) end.
Proof.
  destruct op; cbn [apply_op].
  - rewrite register_heap, length_app; simpl; lia.
  - by rewrite deregister_heap.
Qed.

Lemma run_ops_net_effect ops w u :
  bus_wf w →
  list_to_set (subs_of (run_ops ops w) u) =@{gset nat}
  net_effect u (length (heap w)) (list_to_set (subs_of w u)) ops.
Proof.
  revert w. induction ops as [|op ops IH]; intros w Hwf; [done|].
  change (run_ops (op :: ops) w) with (run_ops ops (apply_op w op)).
  rewrite IH by by apply bus_wf_apply_op.
  rewrite apply_op_active, apply_op_next by done.
  by destruct op.
Qed.

(** C1: for every sequence of registrations and deregistrations run from a
    well-formed world (in particular from the empty bus), the list kept
    for a user holds exactly the handles of the sequence's net effect,
    each of them once, and deregistering a handle that is no longer in
    the list changes nothing. *)
Theorem active_handles_are_net_effect ops w u :
  bus_wf w →
  NoDup (subs_of (run_ops ops w) u)
  ∧ (∀ ch, ch ∈ subs_of (run_ops ops w) u ↔
           ch ∈ net_effect u (length (heap w)) (list_to_set (subs_of w u)) ops)
  ∧ (∀ ch, ch ∉ subs_of (run_ops ops w) u →
           run_ops (ops ++ [Deregister u ch]) w = run_ops ops w).
Proof.
  intros Hwf. split_and!.
  - apply (wf_nodup _ (bus_wf_run_ops ops w Hwf)).
  - intros ch. rewrite <- (run_ops_net_effect ops w u Hwf).
    by rewrite elem_of_list_to_set.
  - intros ch Hnin. unfold run_ops. rewrite foldl_app; simpl.
    by apply deregister_absent.
Qed.

(** ** Non-blocking sends *)

Lemma push_0 payload c : push 0 payload c = c.
Proof. destruct c. unfold push; simpl. by rewrite app_nil_r. Qed.

Lemma push_push k1 k2 payload c :
  push k2 payload (push k1 payload c) = push (k1 + k2) payload c.
Proof. unfold push; simpl. by rewrite <- app_assoc, replicate_add. Qed.

Lemma has_room_push_0 payload c : has_room (push 0 payload c) = has_room c.
Proof. by rewrite push_0. Qed.

Lemma after_send_closed ch payload x c : closed (after_send ch payload x c) = closed c.
Proof. unfold after_send. by repeat case_match. Qed.

Lemma after_send_push ch payload x c :
  ∃ k, after_send ch payload x c = push k payload c
       ∧ (x ≠ ch → k = 0)%nat ∧ (has_room c = false → k = 0)%nat
       ∧ (x = ch → has_room c = true → k = 1)%nat ∧ (k ≤ 1)%nat.
Proof.
  unfold after_send. destruct (decide (x = ch)) as [->|Hne].
  - destruct (has_room c) eqn:E.
    + exists 1%nat. split_and!; [done|done|done|done|lia].
    + exists 0%nat. rewrite push_0. split_and!; [done|done|done|done|lia].
  - exists 0%nat. rewrite push_0. split_and!; [done|done|done|done|lia].
Qed.

Lemma select_send_Done ch payload w :
  (∀ c, heap w !! ch = Some c → closed c = false) →
  ∃ w', select_send ch payload w = Done tt w'
        ∧ userStreams_m w' = userStreams_m w ∧ db w' = db w
        ∧ length (heap w') = length (heap w)
        ∧ ∀ x c, heap w !! x = Some c →
                 heap w' !! x = Some (after_send ch payload x c).
Proof.
  intros Hopen. unfold select_send, after_send.
  destruct (heap w !! ch) as [c0|] eqn:E.
  - rewrite (Hopen c0 eq_refl).
    fold (has_room c0). destruct (has_room c0) eqn:Hroom.
    + eexists. split; [done|]. simpl. split_and!; [done|done|by rewrite length_insert|].
      intros x c Hx. destruct (decide (x = ch)) as [->|Hne].
      * rewrite list_lookup_insert_eq by by eapply lookup_lt_Some.
        rewrite E in Hx. injection Hx as <-. rewrite Hroom.
        unfold push. by rewrite (Hopen c0 eq_refl).
      * by rewrite list_lookup_insert_ne.
    + eexists. split; [done|]. simpl. split_and!; [done|done|done|].
      intros x c Hx. destruct (decide (x = ch)) as [->|Hne]; [|done].
      rewrite E in Hx. injection Hx as <-. by rewrite Hroom.
  - eexists. split; [done|]. simpl. split_and!; [done|done|done|].
    intros x c Hx. destruct (decide (x = ch)) as [->|Hne]; [|done]. congruence.
Qed.

(** The loop of [publishToUser] over channels that are all open: it ends
    without a panic, and every channel of the heap ends up with [k] more
    copies of the payload, where [k] is described below. *)
Lemma send_all_spec subs payload w :
  (∀ ch, ch ∈ subs → ∃ c, heap w !! ch = Some c ∧ closed c = false) →
  ∃ w', send_all subs payload w = Done tt w'
        ∧ userStreams_m w' = userStreams_m w ∧ db w' = db w
        ∧ length (heap w') = length (heap w)
        ∧ ∀ x c, heap w !! x = Some c →
            ∃ k, heap w' !! x = Some (push k payload c)
                 ∧ (x ∉ subs → k = 0)%nat
                 ∧ (has_room c = false → k = 0)%nat
                 ∧ (x ∈ subs → has_room c = true → 1 ≤ k)%nat
                 ∧ (NoDup subs → k ≤ 1)%nat.
Proof.
  revert w. induction subs as [|ch rest IH]; intros w Hopen.
  - exists w. split; [done|]. split_and!; [done|done|done|].
    intros x c Hx. exists 0%nat. rewrite push_0.
    split_and!; [done|done|done| |lia]. by intros ?%elem_of_nil.
  - destruct (select_send_Done ch payload w) as (w1 & Hs & Hm1 & Hd1 & Hl1 & Hh1).
    { intros c Hc. destruct (Hopen ch) as (c' & Hc' & Ho); [left|]. congruence. }
    destruct (IH w1) as (w' & Hr & Hm & Hd & Hl & Hh).
    { intros ch' Hin. destruct (Hopen ch') as (c' & Hc' & Ho); [by right|].
      eexists. split; [by apply Hh1|]. by rewrite after_send_closed. }
    exists w'. split.
    { simpl. unfold bind. by rewrite Hs. }
    split_and!; [congruence|congruence|congruence|].
    intros x c Hx.
    destruct (after_send_push ch payload x c) as (k1 & Hk1 & Hne1 & Hfull1 & Hhit1 & Hle1).
    destruct (Hh x _ (Hh1 x c Hx)) as (k2 & Hk2 & Hnin2 & Hfull2 & Hin2 & Hnd2).
    exists (k1 + k2)%nat. rewrite Hk1 in Hk2, Hfull2, Hin2.
    rewrite push_push in Hk2. split; [done|]. split_and!.
    + intros Hnin. apply not_elem_of_cons in Hnin as [Hne Hnin].
      rewrite (Hne1 Hne), (Hnin2 Hnin). done.
    + intros Hfull. rewrite (Hfull1 Hfull) in *. rewrite has_room_push_0 in Hfull2.
      by rewrite (Hfull2 Hfull).
    + intros Hin Hroom. destruct (decide (x = ch)) as [->|Hne].
      * rewrite (Hhit1 eq_refl Hroom). lia.
      * apply elem_of_cons in Hin as [?|Hin]; [done|].
        rewrite (Hne1 Hne) in *. rewrite has_room_push_0 in Hin2.
        specialize (Hin2 Hin Hroom). lia.
    + intros Hnd. apply NoDup_cons in Hnd as [Hnin Hnd].
      destruct (decide (x = ch)) as [->|Hne].
      * rewrite (Hnin2 Hnin). lia.
      * rewrite (Hne1 Hne). specialize (Hnd2 Hnd). lia.
Qed.

Lemma delivers_refl payload w : delivers payload (λ _, False) w w.
Proof.
  split_and!; [done|done|done|]. intros ch c Hc. exists 0%nat.
  rewrite push_0. split_and!; [done|done|done|tauto].
Qed.

Lemma delivers_trans payload (t1 t2 : nat → Prop) w w1 w2 :
  delivers payload t1 w w1 → delivers payload t2 w1 w2 →
  delivers payload (λ ch, t1 ch ∨ t2 ch) w w2.
Proof.
  intros (Hm1 & Hd1 & Hl1 & Hh1) (Hm2 & Hd2 & Hl2 & Hh2).
  split_and!; [congruence|congruence|congruence|].
  intros ch c Hc.
  destruct (Hh1 ch c Hc) as (k1 & Hk1 & Hnot1 & Hfull1 & Hhit1).
  destruct (Hh2 ch _ Hk1) as (k2 & Hk2 & Hnot2 & Hfull2 & Hhit2).
  exists (k1 + k2)%nat. rewrite push_push in Hk2. split; [done|]. split_and!.
  - intros Hnot. rewrite Hnot1, Hnot2 by tauto. done.
  - intros Hfull. rewrite (Hfull1 Hfull) in *. rewrite has_room_push_0 in Hfull2.
    by rewrite (Hfull2 Hfull).
  - intros Hin Hroom. destruct k1 as [|k1]; [|lia].
    rewrite has_room_push_0 in Hhit2. destruct Hin as [Hin|Hin].
    + specialize (Hhit1 Hin Hroom). lia.
    + specialize (Hhit2 Hin Hroom). lia.
Qed.

Lemma delivers_targets payload (t1 t2 : nat → Prop) w w' :
  (∀ ch, t1 ch ↔ t2 ch) → delivers payload t1 w w' → delivers payload t2 w w'.
Proof.
  intros Heq (Hm & Hd & Hl & Hh). split_and!; [done|done|done|].
  intros ch c Hc. destruct (Hh ch c Hc) as (k & Hk & Hnot & Hfull & Hhit).
  exists k. split; [done|]. rewrite <- Heq. done.
Qed.

Lemma delivers_same_bus payload t w w' : delivers payload t w w' → same_bus w w'.
Proof.
  intros (Hm & Hd & Hl & Hh). split_and!; [done|done|].
  intros ch c Hc. destruct (Hh ch c Hc) as (k & Hk & _). by exists (push k payload c).
Qed.

Lemma same_bus_refl w : same_bus w w.
Proof. split_and!; [done|done|]. intros ch c Hc. by exists c. Qed.

Lemma same_bus_set_db d w : same_bus w (set_db d w).
Proof. split_and!; [done|done|]. intros ch c Hc. by exists c. Qed.

Lemma same_bus_trans w1 w2 w3 : same_bus w1 w2 → same_bus w2 w3 → same_bus w1 w3.
Proof.
  intros (Hm1 & Hl1 & Hh1) (Hm2 & Hl2 & Hh2). split_and!; [congruence|congruence|].
  intros ch c Hc. destruct (Hh1 ch c Hc) as (c1 & Hc1 & Ho1 & Hcap1).
  destruct (Hh2 ch c1 Hc1) as (c2 & Hc2 & Ho2 & Hcap2).
  exists c2. split_and!; congruence.
Qed.

Lemma bus_wf_same_bus w w' : same_bus w w' → bus_wf w → bus_wf w'.
Proof.
  intros (Hm & Hl & Hh) Hwf.
  assert (Hsubs : ∀ u, subs_of w' u = subs_of w u) by (intros u; by apply subs_of_same_m).
  split.
  - intros u ch. rewrite Hsubs. intros Hin.
    destruct (wf_open w Hwf u ch Hin) as (c & Hc & Ho).
    destruct (Hh ch c Hc) as (c' & Hc' & Ho' & _). exists c'. split; congruence.
  - intros u. rewrite Hsubs. apply (wf_nodup w Hwf).
  - intros u1 u2 ch. rewrite !Hsubs. apply (wf_owner w Hwf).
Qed.

Lemma ret_bind {A B} (a : A) (k : A → M B) w : bind (ret a) k w = k a w.
Proof. reflexivity. Qed.

Lemma bind_Done {A B} (c : M A) (k : A → M B) w a w1 :
  c w = Done a w1 → bind c k w = k a w1.
Proof. unfold bind. by intros ->. Qed.

(** Skipping one user inside the loop is looping over the others. *)
Lemma for_each_skip (ps : list Z) (u : Z) (body : Z → M unit) w :
  for_each ps (λ pid, if bool_decide (pid = u) then ret tt else body pid) w
  = for_each (filter (λ pid, pid ≠ u) ps) body w.
Proof.
  revert w. induction ps as [|p ps IH]; intros w; [done|].
  rewrite filter_cons. simpl. destruct (decide (p ≠ u)) as [Hne|Heq].
  - rewrite bool_decide_eq_false_2 by done. simpl. unfold bind.
    destruct (body p w); [apply IH|done].
  - apply dec_stable in Heq. rewrite bool_decide_eq_true_2 by done.
    rewrite ret_bind. apply IH.
Qed.

Section HandlerProofs.

Variable json_Marshal : sseEvent → Bytes.
Variable Atoi : string → Z.

(** ** [publishToUser] *)

Lemma publishToUser_spec u evt w :
  (∀ ch, ch ∈ subs_of w u → ∃ c, heap w !! ch = Some c ∧ closed c = false) →
  ∃ w', publishToUser json_Marshal u evt w = Done tt w'
        ∧ userStreams_m w' = userStreams_m w ∧ db w' = db w
        ∧ length (heap w') = length (heap w)
        ∧ ∀ x c, heap w !! x = Some c →
            ∃ k, heap w' !! x = Some (push k (json_Marshal evt) c)
                 ∧ (x ∉ subs_of w u → k = 0)%nat
                 ∧ (has_room c = false → k = 0)%nat
                 ∧ (x ∈ subs_of w u → has_room c = true → 1 ≤ k)%nat
                 ∧ (NoDup (subs_of w u) → k ≤ 1)%nat.
Proof.
  intros Hopen. unfold publishToUser.
  destruct (subs_of w u) as [|ch rest] eqn:E.
  - exists w. simpl. split; [done|]. split_and!; [done|done|done|].
    intros x c Hx. exists 0%nat. rewrite push_0.
    split_and!; [done|done|done| |lia]. by intros ?%elem_of_nil.
  - change (length (ch :: rest) =? 0)%nat with false. cbv iota.
    destruct (send_all_spec (ch :: rest) (json_Marshal evt) (log (EMarshal evt) w))
      as (w' & Hs & Hm & Hd & Hl & Hh); [exact Hopen|].
    exists w'. split; [done|]. split_and!; [done|done|done|exact Hh].
Qed.

Lemma publishToUser_delivers u evt w :
  (∀ ch, ch ∈ subs_of w u → ∃ c, heap w !! ch = Some c ∧ closed c = false) →
  ∃ w', publishToUser json_Marshal u evt w = Done tt w'
        ∧ delivers (json_Marshal evt) (λ ch, ch ∈ subs_of w u) w w'.
Proof.
  intros Hopen.
  destruct (publishToUser_spec u evt w Hopen) as (w' & Hp & Hm & Hd & Hl & Hh).
  exists w'. split; [done|]. split_and!; [done|done|done|].
  intros ch c Hc. destruct (Hh ch c Hc) as (k & Hk & Hnin & Hfull & Hin & _).
  exists k. done.
Qed.

(** The fan-out loop of the handlers. *)
Lemma publish_each_delivers ps evt w :
  (∀ p ch, p ∈ ps → ch ∈ subs_of w p → ∃ c, heap w !! ch = Some c ∧ closed c = false) →
  ∃ w', for_each ps (λ pid, publishToUser json_Marshal pid evt) w = Done tt w'
        ∧ delivers (json_Marshal evt) (channels_of w ps) w w'.
Proof.
  revert w. induction ps as [|p ps IH]; intros w Hopen.
  - exists w. split; [done|]. eapply delivers_targets; [|apply delivers_refl].
    intros ch. split; [done|]. by intros (p & ?%elem_of_nil & _).
  - destruct (publishToUser_delivers p evt w) as (w1 & Hp & Hd1).
    { intros ch Hin. apply (Hopen p ch); [left|done]. }
    assert (Hsubs : ∀ u, subs_of w1 u = subs_of w u).
    { intros u. apply subs_of_same_m. apply Hd1. }
    destruct (IH w1) as (w' & Hr & Hd2).
    { intros q ch Hq Hin. rewrite Hsubs in Hin.
      destruct (Hopen q ch) as (c & Hc & Ho); [by right|done|].
      destruct Hd1 as (_ & _ & _ & Hh1).
      destruct (Hh1 ch c Hc) as (k & Hk & _). by exists (push k (json_Marshal evt) c). }
    exists w'. split.
    { simpl. by rewrite (bind_Done _ _ _ _ _ Hp). }
    eapply delivers_targets; [|exact (delivers_trans _ _ _ _ _ _ Hd1 Hd2)].
    intros ch. unfold channels_of. split.
    + intros [Hin|(q & Hq & Hin)].
      * exists p. split; [left|done].
      * exists q. rewrite Hsubs in Hin. split; [by right|done].
    + intros (q & Hq & Hin). apply elem_of_cons in Hq as [->|Hq]; [by left|].
      right. exists q. by rewrite Hsubs.
Qed.

(** C9: publishing to a user with no registered channel returns at once
    and leaves the whole world as it was: subscriber map, channels, store
    and the record of serialisation and delivery work. *)
Theorem publishToUser_no_subscribers u evt w :
  subs_of w u = [] → publishToUser json_Marshal u evt w = Done tt w.
Proof. intros H. unfold publishToUser. by rewrite H. Qed.

(** C2: in a well-formed world, publishing to any user returns normally,
    whatever the state of the buffers: a channel registered for the user
    gets the serialised event queued when it has room and is left alone
    when it is full, and every other channel is left alone. *)
Theorem publishToUser_best_effort u evt w :
  bus_wf w →
  ∃ w', publishToUser json_Marshal u evt w = Done tt w'
        ∧ userStreams_m w' = userStreams_m w ∧ db w' = db w
        ∧ length (heap w') = length (heap w)
        ∧ ∀ ch c, heap w !! ch = Some c →
            heap w' !! ch =
            Some (if decide (ch ∈ subs_of w u)
                  then if has_room c then push 1 (json_Marshal evt) c else c
                  else c).
Proof.
  intros Hwf.
  destruct (publishToUser_spec u evt w (wf_open w Hwf u)) as (w' & Hp & Hm & Hd & Hl & Hh).
  exists w'. split; [done|]. split_and!; [done|done|done|].
  intros ch c Hc. destruct (Hh ch c Hc) as (k & Hk & Hnin & Hfull & Hin & Hnd).
  rewrite Hk. f_equal. destruct (decide (ch ∈ subs_of w u)) as [Hi|Hn].
  - destruct (has_room c) eqn:Hroom.
    + specialize (Hin Hi eq_refl). specialize (Hnd (wf_nodup w Hwf u)).
      by replace k with 1%nat by lia.
    + rewrite (Hfull eq_refl). apply push_0.
  - rewrite (Hnin Hn). apply push_0.
Qed.

(** ** Statements against the store *)

Lemma statement_spec d :
  statement d = (default false (head (faults d)), set_faults (tail (faults d)) d).
Proof. unfold statement. destruct d as [cs ms nc nm t [|b fs]]; reflexivity. Qed.

Lemma answers_0 d : answers 0 d.
Proof. apply Forall_nil_2. Qed.

Lemma no_faults_answers n d : no_faults d → answers n d.
Proof. unfold no_faults, answers. intros ->. rewrite take_nil. apply Forall_nil_2. Qed.

Lemma answers_S n d :
  answers (S n) d →
  default false (head (faults d)) = false ∧ answers n (set_faults (tail (faults d)) d).
Proof.
  unfold answers. simpl. destruct (faults d) as [|b fs]; simpl.
  - intros _. split; [done|]. rewrite take_nil. apply Forall_nil_2.
  - intros [-> H]%Forall_cons. done.
Qed.

Lemma answers_faults n d d' : faults d' = faults d → answers n d → answers n d'.
Proof. unfold answers. by intros ->. Qed.

Lemma answers_le n m d : (n ≤ m)%nat → answers m d → answers n d.
Proof.
  unfold answers. intros Hle H.
  replace n with (n `min` m)%nat by lia. rewrite <- take_take. by apply Forall_take.
Qed.

Lemma answers_head n d : answers (S n) d → default false (head (faults d)) = false.
Proof. by intros [? _]%answers_S. Qed.

Lemma answers_next n d d' :
  faults d' = tail (faults d) → answers (S n) d → answers n d'.
Proof. intros Hf [_ H]%answers_S. by apply (answers_faults n _ d') in H. Qed.

Lemma set_db_db w : set_db (db w) w = w.
Proof. by destruct w. Qed.

Lemma with_db_Done {A} (q : Store → A * Store) w :
  with_db q w = Done (q (db w)).1 (set_db (q (db w)).2 w).
Proof. unfold with_db. by destruct (q (db w)). Qed.

Lemma query_participants_spec cid d :
  query_participants cid d =
  (if default false (head (faults d)) then inl store_failure
   else match find_conversation cid d with
        | Some r => inr (conv_buyer_id r, conv_seller_id r)
        | None => inl sql_ErrNoRows
        end,
   set_faults (tail (faults d)) d).
Proof.
  unfold query_participants, find_conversation. rewrite statement_spec.
  destruct (default false (head (faults d))); [done|]. simpl.
  by destruct (find _ _).
Qed.

Lemma query_conversation_id_spec p b s d :
  query_conversation_id p b s d =
  (if default false (head (faults d)) then inl store_failure
   else match find (triple_matches p b s) (conversations d) with
        | Some r => inr (conv_id r)
        | None => inl sql_ErrNoRows
        end,
   set_faults (tail (faults d)) d).
Proof.
  unfold query_conversation_id. rewrite statement_spec.
  destruct (default false (head (faults d))); [done|]. simpl.
  by destruct (find _ _).
Qed.

Lemma find_elem_of {A} (f : A → bool) (l : list A) x :
  find f l = Some x → x ∈ l ∧ f x = true.
Proof. intros [H1 H2]%find_some. by rewrite list_elem_of_In. Qed.

Lemma find_None_elem_of {A} (f : A → bool) (l : list A) x :
  find f l = None → x ∈ l → f x = false.
Proof. intros H Hin. apply (find_none f l H). by rewrite <- list_elem_of_In. Qed.

Lemma find_app_None {A} (f : A → bool) (l1 l2 : list A) :
  find f l1 = None → find f (l1 ++ l2) = find f l2.
Proof.
  induction l1 as [|x l1 IH]; simpl; [done|].
  destruct (f x); [done|]. apply IH.
Qed.

Lemma find_app_Some {A} (f : A → bool) (l1 l2 : list A) x :
  find f l1 = Some x → find f (l1 ++ l2) = Some x.
Proof.
  induction l1 as [|y l1 IH]; simpl; [done|].
  destruct (f y); [done|]. apply IH.
Qed.

Lemma triple_matches_spec p b s r :
  triple_matches p b s r = true ↔
  conv_product_id r = p ∧ conv_buyer_id r = b ∧ conv_seller_id r = s.
Proof.
  unfold triple_matches. rewrite !andb_true_iff, !bool_decide_eq_true. tauto.
Qed.

(** Inserting a row for a triple that has none keeps triples unique. *)
Lemma triples_unique_snoc rows r :
  triples_unique rows →
  find (triple_matches (conv_product_id r) (conv_buyer_id r) (conv_seller_id r)) rows = None →
  triples_unique (rows ++ [r]).
Proof.
  intros Hu Hnone i j r1 r2 H1 H2 Hp Hb Hs.
  assert (Hold : ∀ k x, (rows ++ [r]) !! k = Some x →
            rows !! k = Some x ∨ (k = length rows ∧ x = r)).
  { intros k x Hk. destruct (decide (k < length rows)%nat) as [Hlt|Hge].
    - left. by rewrite lookup_app_l in Hk.
    - right. rewrite lookup_app_r in Hk by lia.
      destruct (k - length rows)%nat as [|k'] eqn:E; simpl in Hk; [|done].
      injection Hk as <-. split; [lia|done]. }
  assert (Hclash : ∀ k x, rows !! k = Some x →
            conv_product_id x = conv_product_id r → conv_buyer_id x = conv_buyer_id r →
            conv_seller_id x = conv_seller_id r → False).
  { intros k x Hk ? ? ?.
    assert (Hx : x ∈ rows) by (apply list_elem_of_lookup; eauto).
    apply (find_None_elem_of _ _ _ Hnone) in Hx.
    assert (triple_matches (conv_product_id r) (conv_buyer_id r) (conv_seller_id r) x = true)
      by by apply triple_matches_spec.
    congruence. }
  destruct (Hold i r1 H1) as [H1'|[-> ->]], (Hold j r2 H2) as [H2'|[-> ->]].
  - by apply (Hu i j r1 r2).
  - exfalso. by apply (Hclash i r1).
  - exfalso. by apply (Hclash j r2).
  - done.
Qed.

(** ** [ensureConversation] *)

Lemma ensureConversation_found p b s w r :
  answers 1 (db w) →
  find (triple_matches p b s) (conversations (db w)) = Some r →
  ensureConversation p b s w =
  Done (conv_id r, None) (set_db (set_faults (tail (faults (db w))) (db w)) w).
Proof.
  intros [Hhd _]%answers_S Hfind. unfold ensureConversation, bind.
  rewrite with_db_Done, query_conversation_id_spec, Hhd, Hfind. reflexivity.
Qed.

Lemma ensureConversation_inserts p b s w :
  answers 2 (db w) →
  find (triple_matches p b s) (conversations (db w)) = None →
  ∃ w1, ensureConversation p b s w = Done (next_conversation_id (db w), None) w1
        ∧ conversations (db w1) = conversations (db w) ++
            [{| conv_id := next_conversation_id (db w); conv_product_id := p;
                conv_buyer_id := b; conv_seller_id := s |}]
        ∧ messages (db w1) = messages (db w)
        ∧ faults (db w1) = tail (tail (faults (db w)))
        ∧ same_bus w w1.
Proof.
  intros [Hhd [Hhd2 _]%answers_S]%answers_S Hfind. simpl in Hhd2.
  unfold ensureConversation, bind.
  rewrite with_db_Done, query_conversation_id_spec, Hhd, Hfind. cbn [fst snd].
  rewrite with_db_Done. unfold exec_insert_conversation.
  rewrite statement_spec. cbn [db set_db faults set_faults]. rewrite Hhd2.
  eexists. split; [reflexivity|]. split_and!; try reflexivity.
  split_and!; [done|done|]. intros ch c Hc. by exists c.
Qed.

(** C5: while the store answers, two calls of [ensureConversation] with
    the same (product, buyer, seller) return the same id, the second call
    adds no row, and a table in which every triple had at most one row
    still has at most one row per triple after the calls: a row is only
    inserted when the lookup found none. *)
Theorem ensureConversation_idempotent p b s w :
  answers 3 (db w) →
  ∃ id w1 w2,
    ensureConversation p b s w = Done (id, None) w1
    ∧ ensureConversation p b s w1 = Done (id, None) w2
    ∧ conversations (db w2) = conversations (db w1)
    ∧ (∃ r, find (triple_matches p b s) (conversations (db w1)) = Some r ∧ conv_id r = id)
    ∧ (find (triple_matches p b s) (conversations (db w)) ≠ None →
       conversations (db w1) = conversations (db w))
    ∧ (triples_unique (conversations (db w)) → triples_unique (conversations (db w2))).
Proof.
  intros Hans.
  destruct (find (triple_matches p b s) (conversations (db w))) as [r|] eqn:Hfind.
  - eexists _, _, _. split.
    { apply ensureConversation_found; [|exact Hfind]. apply (answers_le 1 3); [lia|done]. }
    split.
    { apply ensureConversation_found; [|exact Hfind].
      apply (answers_le 1 2); [lia|]. by apply (answers_next 2 (db w)). }
    split_and!; [done|by exists r|done|done].
  - assert (H2 : answers 2 (db w)) by (apply (answers_le 2 3); [lia|done]).
    destruct (ensureConversation_inserts p b s w H2 Hfind)
      as (w1 & Hc1 & Hrows & Hmsgs & Hf & Hbus).
    set (row := {| conv_id := next_conversation_id (db w); conv_product_id := p;
                   conv_buyer_id := b; conv_seller_id := s |}) in *.
    assert (Hrow : triple_matches p b s row = true) by by apply triple_matches_spec.
    assert (Hfind1 : find (triple_matches p b s) (conversations (db w1)) = Some row).
    { rewrite Hrows, find_app_None by done. simpl. by rewrite Hrow. }
    eexists _, w1, _. split; [exact Hc1|]. split.
    { apply (ensureConversation_found p b s w1 row); [|exact Hfind1].
      apply (answers_next 1 (set_faults (tail (faults (db w))) (db w))); [done|].
      by apply (answers_next 2 (db w)). }
    split_and!; [done|by exists row|done|].
    intros Hu. cbn [db set_db conversations set_faults]. rewrite Hrows.
    apply triples_unique_snoc; [done|]. exact Hfind.
Qed.

(** ** Validation and access control *)

(** C6: an authenticated [SendMessage] whose content is empty, or whose
    conversation id is missing (zero), is answered with the bad-request
    error and leaves the world untouched: no row is inserted, no channel
    receives anything, no statement reaches the store. *)
Theorem SendMessage_rejects_invalid c u p w :
  ctx_user c = Some u → ctx_body c = Some p →
  sm_Content p = "" ∨ sm_ConversationID p = 0 →
  SendMessage json_Marshal c w = Done ErrBadRequest w.
Proof.
  intros Hu Hb Hbad. unfold SendMessage. rewrite Hu, Hb.
  destruct Hbad as [Hbad|Hbad]; rewrite Hbad.
  - by rewrite orb_true_r.
  - done.
Qed.

Lemma getConversationParticipants_spec cid w :
  getConversationParticipants cid w =
  Done (if default false (head (faults (db w))) then []
        else match find_conversation cid (db w) with
             | Some r => [conv_buyer_id r; conv_seller_id r]
             | None => []
             end)
       (set_db (set_faults (tail (faults (db w))) (db w)) w).
Proof.
  unfold getConversationParticipants, bind.
  rewrite with_db_Done, query_participants_spec. cbn [fst snd].
  destruct (default false (head (faults (db w)))); [done|].
  by destruct (find_conversation cid (db w)).
Qed.

(** C7: an authenticated [GetMessages] for a conversation that does not
    exist is answered with the not-found error; for a conversation that
    exists but of which the requester is neither buyer nor seller it is
    answered with the forbidden error as soon as the store answers the
    lookup (and with not-found when the lookup itself fails); in all these
    cases the response carries no message row, and no table changes. *)
Theorem GetMessages_access_control c u w :
  ctx_user c = Some u →
  ∃ r w', GetMessages Atoi c w = Done r w'
    ∧ same_tables (db w) (db w')
    ∧ (find_conversation (Atoi (ctx_params_id c)) (db w) = None →
       r = ErrNotFound ∧ disclosed_messages r = [])
    ∧ (∀ row, find_conversation (Atoi (ctx_params_id c)) (db w) = Some row →
         ¬ is_participant u row →
         (answers 1 (db w) → r = ErrForbidden)
         ∧ (r = ErrForbidden ∨ r = ErrNotFound)
         ∧ disclosed_messages r = []).
Proof.
  intros Hu. unfold GetMessages, bind. rewrite Hu.
  rewrite with_db_Done, query_participants_spec. cbn [fst snd].
  destruct (default false (head (faults (db w)))) eqn:Hhd.
  - eexists _, _. split; [reflexivity|]. split; [done|]. split; [done|].
    intros row _ _. split_and!; [|by right|done].
    intros Hans%answers_head. congruence.
  - destruct (find_conversation (Atoi (ctx_params_id c)) (db w)) as [row|] eqn:Hfind.
    + destruct (bool_decide (u ≠ conv_buyer_id row) && bool_decide (u ≠ conv_seller_id row))
        eqn:Hpart.
      * eexists _, _. split; [reflexivity|]. split; [done|]. split; [done|].
        intros ? [= <-] _. split_and!; [done|by left|done].
      * assert (Hin : is_participant u row).
        { apply andb_false_iff in Hpart as [H|H]; apply bool_decide_eq_false in H;
            apply dec_stable in H; [by left|by right]. }
        rewrite with_db_Done. unfold query_messages. rewrite statement_spec.
        cbn [db set_db faults set_faults].
        destruct (default false (head (tail (faults (db w)))));
          (eexists _, _; split; [reflexivity|]; split; [done|]; split; [done|]);
          intros ? [= <-] Hnp; done.
    + eexists _, _. split; [reflexivity|]. split; [done|]. split; [done|].
      intros ? [=].
Qed.


(** The same holds when the lookup fails because the store does. *)
Lemma Typing_lookup_fails c u p w :
  ctx_user c = Some u → ctx_body c = Some p →
  default false (head (faults (db w))) = true →
  ∃ w', Typing json_Marshal c w = Done (success NoData) w'
    ∧ heap w' = heap w ∧ userStreams_m w' = userStreams_m w
    ∧ trace w' = trace w ∧ same_tables (db w) (db w').
Proof.
  intros Hu Hb Hhd. unfold Typing. rewrite Hu, Hb. unfold bind.
  rewrite getConversationParticipants_spec, Hhd. by eexists.
Qed.

(** ** [saveMessage] and the fan-out of [SendMessage] and [Typing] *)

Lemma saveMessage_spec cid u content w :
  answers 2 (db w) → message_ids_fresh (db w) →
  ∃ d', saveMessage cid u content w =
          Done (next_message_id (db w), db_clock (db w), None) (set_db d' w)
        ∧ conversations d' = conversations (db w)
        ∧ messages d' = messages (db w) ++ [new_message (db w) cid u content]
        ∧ faults d' = tail (tail (faults (db w))).
Proof.
  intros Hans Hfresh. pose proof (answers_head _ _ Hans) as Hhd.
  assert (Hhd2 : default false (head (tail (faults (db w)))) = false).
  { apply (answers_head 0 (set_faults (tail (faults (db w))) (db w))).
    by apply (answers_next 1 (db w)). }
  unfold saveMessage, bind. rewrite with_db_Done.
  unfold exec_insert_message. rewrite statement_spec, Hhd. cbn [fst snd].
  rewrite with_db_Done. unfold query_message_created_at. rewrite statement_spec.
  cbn [db set_db faults set_faults messages next_message_id db_clock]. rewrite Hhd2.
  rewrite find_app_None.
  - simpl. rewrite bool_decide_eq_true_2 by done. simpl.
    eexists. split; [reflexivity|]. done.
  - destruct (find _ (messages (db w))) as [r|] eqn:E; [|done].
    apply find_elem_of in E as [Hin Heq]. apply bool_decide_eq_true in Heq.
    apply Hfresh in Hin. lia.
Qed.

Lemma bus_wf_set_db d w : bus_wf w → bus_wf (set_db d w).
Proof. apply bus_wf_same_bus, same_bus_set_db. Qed.

(** A call of [SendMessage] that gets as far as a JSON success passed
    authentication, body parsing and validation. *)
Lemma SendMessage_success_inv c w w' :
  SendMessage json_Marshal c w = Done (success NoData) w' →
  ∃ u p, ctx_user c = Some u ∧ ctx_body c = Some p
         ∧ sm_ConversationID p ≠ 0 ∧ sm_Content p ≠ "".
Proof.
  unfold SendMessage. destruct (ctx_user c) as [u|]; [|done].
  destruct (ctx_body c) as [p|]; [|done].
  destruct (bool_decide (sm_ConversationID p = 0)) eqn:E1; [done|].
  destruct (bool_decide (sm_Content p = "")) eqn:E2; [done|].
  intros _. exists u, p. apply bool_decide_eq_false in E1, E2. done.
Qed.

(** With a store that answers, a valid [SendMessage] on an existing
    conversation does return success. *)
Lemma SendMessage_spec c u p row w :
  bus_wf w → answers 3 (db w) → message_ids_fresh (db w) →
  ctx_user c = Some u → ctx_body c = Some p →
  sm_ConversationID p ≠ 0 → sm_Content p ≠ "" →
  find_conversation (sm_ConversationID p) (db w) = Some row →
  ∃ w', SendMessage json_Marshal c w = Done (success NoData) w'
    ∧ conversations (db w') = conversations (db w)
    ∧ messages (db w') =
        messages (db w) ++ [new_message (db w) (sm_ConversationID p) u (sm_Content p)]
    ∧ delivers
        (json_Marshal (message_event (next_message_id (db w)) (sm_ConversationID p) u
                         (sm_Content p) (db_clock (db w))))
        (channels_of w [conv_buyer_id row; conv_seller_id row])
        (set_db (db w') w) w'.
Proof.
  intros Hwf Hans Hfresh Hu Hb Hcid Hcontent Hfind.
  destruct (saveMessage_spec (sm_ConversationID p) u (sm_Content p) w)
    as (d1 & Hsave & Hconv1 & Hmsg1 & Hf1); [by apply (answers_le 2 3); [lia|]|done|].
  assert (Hhd3 : default false (head (faults d1)) = false).
  { apply (answers_head 0). apply (answers_faults 1 (set_faults (faults d1) d1)); [done|].
    apply (answers_next 1 (set_faults (tail (faults (db w))) (db w))); [done|].
    by apply (answers_next 2 (db w)). }
  unfold SendMessage. rewrite Hu, Hb.
  rewrite bool_decide_eq_false_2, bool_decide_eq_false_2 by done. cbn [orb].
  unfold bind at 1. rewrite Hsave. unfold bind at 1.
  rewrite getConversationParticipants_spec. cbn [db set_db]. rewrite Hhd3.
  assert (Hfind1 : find_conversation (sm_ConversationID p) d1 = Some row).
  { unfold find_conversation in *. by rewrite Hconv1. }
  rewrite Hfind1.
  set (w2 := set_db (set_faults (tail (faults d1)) d1) (set_db d1 w)).
  set (evt := message_event _ _ _ _ _).
  destruct (publish_each_delivers [conv_buyer_id row; conv_seller_id row] evt w2)
    as (w' & Hpub & Hd).
  { intros q ch _ Hin. apply (wf_open w Hwf q ch Hin). }
  exists w'. unfold bind. rewrite Hpub. split; [done|].
  destruct Hd as (Hm & Hdb & Hl & Hh).
  split_and!; [by rewrite Hdb|by rewrite Hdb|].
  rewrite Hdb. split_and!; [done|done|done|exact Hh].
Qed.

(** C3: whenever [SendMessage] returns success for a conversation that
    exists, in a well-formed world whose store answers the call's three
    statements, the new message row is stored and an event of type
    ["message"], whose data are that row's id, the conversation id, the
    sender id, the content and the row's created-at under the keys
    ["id"], ["conversation_id"], ["sender_id"], ["content"] and
    ["created_at"], is serialised and queued on every channel with room
    registered for the buyer or for the seller, the sender included when
    it is one of them; all these channels get the very same payload. *)
Theorem SendMessage_publishes_to_participants c u p row w w' :
  bus_wf w → answers 3 (db w) → message_ids_fresh (db w) →
  ctx_user c = Some u → ctx_body c = Some p →
  find_conversation (sm_ConversationID p) (db w) = Some row →
  SendMessage json_Marshal c w = Done (success NoData) w' →
  let m :=
    {| msg_id := next_message_id (db w);
       msg_conversation_id := sm_ConversationID p;
       msg_sender_id := u;
       msg_content := sm_Content p;
       msg_created_at := db_clock (db w);
       msg_read_at := None |} in
  let payload :=
    json_Marshal
      {| Type_ := "message";
         Data := [("id", VInt (msg_id m));
                  ("conversation_id", VInt (sm_ConversationID p));
                  ("sender_id", VInt u);
                  ("content", VString (sm_Content p));
                  ("created_at", VTime (msg_created_at m))] |} in
  messages (db w') = messages (db w) ++ [m]
  ∧ ∀ pid ch q,
      pid = conv_buyer_id row ∨ pid = conv_seller_id row →
      ch ∈ subs_of w pid → heap w !! ch = Some q →
      (length (buf q) < cap q)%nat →
      ∃ k, heap w' !! ch
           = Some {| buf := buf q ++ replicate (S k) payload;
                     cap := cap q; closed := closed q |}.
Proof.
  intros Hwf Hans Hfresh Hu Hb Hfind Hsend m payload.
  destruct (SendMessage_success_inv c w w' Hsend) as (u' & p' & Hu' & Hb' & Hcid & Hcontent).
  assert (u' = u) as -> by congruence. assert (p' = p) as -> by congruence.
  destruct (SendMessage_spec c u p row w Hwf Hans Hfresh Hu Hb Hcid Hcontent Hfind)
    as (w'' & Hsend' & Hconv & Hmsg & Hm & Hdb & Hl & Hh).
  assert (w'' = w') as -> by congruence.
  split; [exact Hmsg|].
  intros pid ch q Hpart Hin Hq Hroom.
  destruct (Hh ch q Hq) as (k & Hk & _ & _ & Hhit).
  assert (1 ≤ k)%nat as Hge.
  { apply Hhit.
    - exists pid. split; [|done]. destruct Hpart as [->| ->]; [left|right; left].
    - by apply Nat.ltb_lt. }
  destruct k as [|k]; [lia|]. exists k. exact Hk.
Qed.

(** C4: an authenticated [Typing] on an existing conversation, in a
    well-formed world whose store answers the lookup, returns success,
    serialises an event of type ["typing"] whose data are the
    conversation id and the caller's id under the keys
    ["conversation_id"] and ["user_id"], queues it on every channel with
    room of every participant other than the caller, and leaves every
    channel of the caller exactly as it was.  So when the buyer types,
    the seller's channels get the event and the buyer's get nothing. *)
Theorem Typing_notifies_other_participants c u p row w :
  bus_wf w → answers 1 (db w) →
  ctx_user c = Some u → ctx_body c = Some p →
  find_conversation (ty_ConversationID p) (db w) = Some row →
  let payload :=
    json_Marshal
      {| Type_ := "typing";
         Data := [("conversation_id", VInt (ty_ConversationID p));
                  ("user_id", VInt u)] |} in
  ∃ w', Typing json_Marshal c w = Done (success NoData) w'
    ∧ (∀ pid ch q,
         pid = conv_buyer_id row ∨ pid = conv_seller_id row → pid ≠ u →
         ch ∈ subs_of w pid → heap w !! ch = Some q →
         (length (buf q) < cap q)%nat →
         ∃ k, heap w' !! ch
              = Some {| buf := buf q ++ replicate (S k) payload;
                        cap := cap q; closed := closed q |})
    ∧ (∀ ch q, ch ∈ subs_of w u → heap w !! ch = Some q → heap w' !! ch = Some q).
Proof.
  intros Hwf Hans Hu Hb Hfind payload. pose proof (answers_head _ _ Hans) as Hhd.
  unfold Typing. rewrite Hu, Hb. unfold bind at 1.
  rewrite getConversationParticipants_spec, Hhd, Hfind.
  set (w1 := set_db _ w). set (evt := typing_event _ _).
  set (others := filter (λ pid, pid ≠ u) [conv_buyer_id row; conv_seller_id row]).
  destruct (publish_each_delivers others evt w1) as (w' & Hpub & Hm & Hdb & Hl & Hh).
  { intros q ch _ Hin. apply (wf_open w Hwf q ch Hin). }
  exists w'. unfold bind. rewrite for_each_skip. fold others. rewrite Hpub.
  split; [done|]. split.
  - intros pid ch q Hpart Hne Hin Hq Hroom.
    destruct (Hh ch q Hq) as (k & Hk & _ & _ & Hhit).
    assert (1 ≤ k)%nat as Hge.
    { apply Hhit.
      - exists pid. split; [|done].
        apply list_elem_of_filter. split; [done|].
        destruct Hpart as [->| ->]; [left|right; left].
      - by apply Nat.ltb_lt. }
    destruct k as [|k]; [lia|]. exists k. exact Hk.
  - intros ch q Hin Hq. destruct (Hh ch q Hq) as (k & Hk & Hnot & _).
    rewrite Hk, Hnot; [by rewrite push_0|].
    intros (pid & [Hne _]%list_elem_of_filter & Hin').
    apply Hne. apply (wf_owner w Hwf pid u ch Hin' Hin).
Qed.

(** Message ids stay fresh when [saveMessage] inserts. *)
Lemma exec_insert_message_fresh cid u content d :
  message_ids_fresh d → message_ids_fresh (exec_insert_message cid u content d).2.
Proof.
  intros Hfresh. unfold exec_insert_message. rewrite statement_spec.
  destruct (default false (head (faults d))); [exact Hfresh|].
  intros r. cbn [snd messages next_message_id set_faults].
  rewrite elem_of_app, list_elem_of_singleton. intros [Hin| ->].
  - apply Hfresh in Hin. lia.
  - simpl. lia.
Qed.

(** ** Every reachable world is well formed *)

Lemma ensureConversation_db p b s w :
  ∃ r d, ensureConversation p b s w = Done r (set_db d w).
Proof.
  unfold ensureConversation, bind. rewrite with_db_Done.
  destruct (query_conversation_id p b s (db w)).1.
  - rewrite with_db_Done.
    destruct (exec_insert_conversation p b s _).1; eexists _, _; reflexivity.
  - eexists _, _; reflexivity.
Qed.

Lemma saveMessage_db cid u content w :
  ∃ r d, saveMessage cid u content w = Done r (set_db d w).
Proof.
  unfold saveMessage, bind. rewrite with_db_Done.
  destruct (exec_insert_message cid u content (db w)).1.
  - eexists _, _; reflexivity.
  - rewrite with_db_Done. eexists _, _; reflexivity.
Qed.

Lemma publish_each_same_bus ps evt w w' :
  bus_wf w →
  for_each ps (λ pid, publishToUser json_Marshal pid evt) w = Done tt w' →
  same_bus w w'.
Proof.
  intros Hwf Hrun.
  destruct (publish_each_delivers ps evt w) as (w'' & Hpub & Hd).
  { intros q ch _ Hin. apply (wf_open w Hwf q ch Hin). }
  assert (w'' = w') as -> by congruence. by eapply delivers_same_bus.
Qed.

Lemma EnsureConversation_same_bus c r w w' :
  EnsureConversation c w = Done r w' → same_bus w w'.
Proof.
  unfold EnsureConversation. destruct (ctx_body c) as [p|].
  - destruct (ensureConversation_db (ec_ProductID p) (ec_BuyerID p) (ec_SellerID p) w)
      as ([id err] & d & He).
    unfold bind. rewrite He. destruct err; intros [= _ <-]; apply same_bus_set_db.
  - intros [= _ <-]. apply same_bus_refl.
Qed.

Lemma SendMessage_same_bus c r w w' :
  bus_wf w → SendMessage json_Marshal c w = Done r w' → same_bus w w'.
Proof.
  intros Hwf. unfold SendMessage.
  destruct (ctx_user c) as [u|]; [|intros [= _ <-]; apply same_bus_refl].
  destruct (ctx_body c) as [p|]; [|intros [= _ <-]; apply same_bus_refl].
  destruct (_ || _); [intros [= _ <-]; apply same_bus_refl|].
  destruct (saveMessage_db (sm_ConversationID p) u (sm_Content p) w)
    as ([[msgID createdAt] err] & d & Hs).
  unfold bind at 1. rewrite Hs. destruct err; [intros [= _ <-]; apply same_bus_set_db|].
  unfold bind at 1. rewrite getConversationParticipants_spec.
  set (w2 := set_db _ (set_db d w)). unfold bind.
  destruct (for_each _ _ w2) as [[] w3|] eqn:Hrun; [|done].
  intros [= _ <-]. apply (same_bus_trans w w2 w3); [exact (same_bus_set_db (db w2) w)|].
  eapply publish_each_same_bus; [|exact Hrun]. exact (bus_wf_set_db (db w2) w Hwf).
Qed.

Lemma Typing_same_bus c r w w' :
  bus_wf w → Typing json_Marshal c w = Done r w' → same_bus w w'.
Proof.
  intros Hwf. unfold Typing.
  destruct (ctx_user c) as [u|]; [|intros [= _ <-]; apply same_bus_refl].
  destruct (ctx_body c) as [p|]; [|intros [= _ <-]; apply same_bus_refl].
  unfold bind at 1. rewrite getConversationParticipants_spec.
  set (w2 := set_db _ w). unfold bind. rewrite for_each_skip.
  destruct (for_each _ _ w2) as [[] w3|] eqn:Hrun; [|done].
  intros [= _ <-]. apply (same_bus_trans w w2 w3); [apply same_bus_set_db|].
  eapply publish_each_same_bus; [|exact Hrun]. by apply bus_wf_set_db.
Qed.

Lemma GetMessages_same_bus c r w w' :
  GetMessages Atoi c w = Done r w' → same_bus w w'.
Proof.
  unfold GetMessages.
  destruct (ctx_user c) as [u|]; [|intros [= _ <-]; apply same_bus_refl].
  unfold bind. rewrite with_db_Done.
  destruct (query_participants _ _).1 as [e|[buyerID sellerID]];
    [intros [= _ <-]; apply same_bus_set_db|].
  destruct (_ && _); [intros [= _ <-]; apply same_bus_set_db|].
  rewrite with_db_Done.
  destruct (query_messages _ _).1; intros [= _ <-]; exact (same_bus_set_db _ w).
Qed.

Lemma bus_wf_close ch w w' :
  (∀ u, ch ∉ subs_of w u) → close ch w = Done tt w' → bus_wf w → bus_wf w'.
Proof.
  intros Hunlinked. unfold close.
  destruct (heap w !! ch) as [q|] eqn:E; [|done].
  destruct (closed q); [done|]. intros [= <-] Hwf. split.
  - intros u x Hin. destruct (wf_open w Hwf u x Hin) as (q' & Hq' & Ho).
    exists q'. split; [|done]. simpl. rewrite list_lookup_insert_ne; [done|].
    intros ->. by apply (Hunlinked u).
  - apply (wf_nodup w Hwf).
  - apply (wf_owner w Hwf).
Qed.

Lemma receive_same_bus ch b w w' : receive ch w = Some (b, w') → same_bus w w'.
Proof.
  unfold receive. destruct (heap w !! ch) as [q|] eqn:E; [|done].
  destruct (buf q) as [|b' rest]; [done|]. intros [= _ <-].
  split_and!; [done|by simpl; rewrite length_insert|].
  intros x q' Hx. simpl. destruct (decide (x = ch)) as [->|Hne].
  - rewrite list_lookup_insert_eq by by eapply lookup_lt_Some.
    eexists. split; [done|]. assert (q' = q) as -> by congruence. done.
  - rewrite list_lookup_insert_ne by done. by exists q'.
Qed.

(** The deferred cleanup of a connection that is registered: it returns
    without a panic, the channel is gone from the user's list and closed,
    and the bus is still well formed. *)
Lemma cleanup_registered u ch w :
  bus_wf w → ch ∈ subs_of w u →
  ∃ w', cleanup u ch w = Done tt w'
        ∧ bus_wf w' ∧ (ch ∉ subs_of w' u)
        ∧ (∀ u' x, x ∈ subs_of w' u' ↔ x ∈ subs_of w u' ∧ x ≠ ch)
        ∧ (∃ q, heap w' !! ch = Some q ∧ closed q = true).
Proof.
  intros Hwf Hin.
  destruct (wf_open w Hwf u ch Hin) as (q & Hq & Hopen).
  assert (Hmem : ∀ u' x, x ∈ subs_of (deregister u ch w) u' ↔ x ∈ subs_of w u' ∧ x ≠ ch).
  { intros u' x. destruct (decide (u = u')) as [<-|Hne].
    - apply deregister_elem_of, (wf_nodup w Hwf).
    - rewrite deregister_subs. destruct (decide (u = u')); [done|].
      split; [|tauto]. intros Hx. split; [done|]. intros ->.
      apply Hne. apply (wf_owner w Hwf u u' ch Hin Hx). }
  unfold cleanup, close. rewrite deregister_heap, Hq, Hopen.
  eexists. split; [reflexivity|]. split_and!.
  - apply (bus_wf_close ch (deregister u ch w)).
    + intros u' Hx. apply Hmem in Hx. tauto.
    + unfold close. by rewrite deregister_heap, Hq, Hopen.
    + by apply bus_wf_deregister.
  - intros Hx. apply Hmem in Hx. tauto.
  - exact Hmem.
  - eexists. cbn [heap set_heap].
    rewrite list_lookup_insert_eq by by eapply lookup_lt_Some. done.
Qed.

Lemma step_bus_wf w w' : step json_Marshal Atoi w w' → bus_wf w → bus_wf w'.
Proof.
  intros Hstep Hwf. destruct Hstep.
  - by apply bus_wf_register.
  - by apply bus_wf_deregister.
  - by eapply bus_wf_close.
  - eapply bus_wf_same_bus; [by eapply receive_same_bus|done].
  - eapply bus_wf_same_bus; [|done].
    destruct (publishToUser_delivers u
                {| Type_ := "notification"; Data := [("message", VString msg)] |} w
                (wf_open w Hwf u)) as (w'' & Hp & Hd).
    unfold publishNotification in *. assert (w'' = w') as -> by congruence.
    by eapply delivers_same_bus.
  - eapply bus_wf_same_bus; [by eapply EnsureConversation_same_bus|done].
  - eapply bus_wf_same_bus; [by eapply SendMessage_same_bus|done].
  - eapply bus_wf_same_bus; [by eapply Typing_same_bus|done].
  - eapply bus_wf_same_bus; [by eapply GetMessages_same_bus|done].
Qed.

(** The invariant assumed of the bus holds in every world the process can
    reach from an empty bus, whatever the store holds. *)
Lemma reachable_bus_wf w : reachable json_Marshal Atoi w → bus_wf w.
Proof.
  induction 1 as [d t|w w' _ IH Hstep].
  - apply bus_wf_init.
  - by apply (step_bus_wf w w').
Qed.

(** So publishing never panics in a world the process can reach. *)
Corollary publishToUser_returns_when_reachable u evt w :
  reachable json_Marshal Atoi w →
  ∃ w', publishToUser json_Marshal u evt w = Done tt w' ∧ same_bus w w'.
Proof.
  intros Hwf%reachable_bus_wf.
  destruct (publishToUser_delivers u evt w (wf_open w Hwf u)) as (w' & Hp & Hd).
  exists w'. split; [done|]. by eapply delivers_same_bus.
Qed.

(** ** Conversation rows are only ever appended *)

Lemma ensureConversation_appends p b s w r w' :
  ensureConversation p b s w = Done r w' →
  conversations (db w) `prefix_of` conversations (db w').
Proof.
  unfold ensureConversation, bind. rewrite with_db_Done, query_conversation_id_spec.
  cbn [fst snd].
  destruct (if default false (head (faults (db w))) then _ else _) as [e|id].
  - rewrite with_db_Done. unfold exec_insert_conversation. rewrite statement_spec.
    cbn [db set_db faults set_faults].
    destruct (default false (head (tail (faults (db w))))); intros [= _ <-]; simpl.
    + done.
    + by apply prefix_app_r.
  - by intros [= _ <-].
Qed.

Lemma saveMessage_conversations cid u content w r w' :
  saveMessage cid u content w = Done r w' →
  conversations (db w') = conversations (db w) ∧ same_bus w w'.
Proof.
  unfold saveMessage, bind. rewrite with_db_Done. unfold exec_insert_message.
  rewrite statement_spec.
  destruct (default false (head (faults (db w)))); cbn [fst snd].
  - intros [= _ <-]. split; [done|apply same_bus_set_db].
  - rewrite with_db_Done. unfold query_message_created_at. rewrite statement_spec.
    cbn [db set_db faults set_faults].
    destruct (default false (head (tail (faults (db w))))); [|destruct (find _ _)];
      intros [= _ <-]; (split; [reflexivity|exact (same_bus_set_db _ w)]).
Qed.

Lemma publish_each_db ps evt w w' :
  bus_wf w →
  for_each ps (λ pid, publishToUser json_Marshal pid evt) w = Done tt w' →
  db w' = db w.
Proof.
  intros Hwf Hrun.
  destruct (publish_each_delivers ps evt w) as (w'' & Hpub & Hd).
  { intros q ch _ Hin. apply (wf_open w Hwf q ch Hin). }
  assert (w'' = w') as -> by congruence. apply Hd.
Qed.

Lemma step_conversations w w' :
  bus_wf w → step json_Marshal Atoi w w' →
  conversations (db w) `prefix_of` conversations (db w').
Proof.
  intros Hwf Hstep. destruct Hstep as
    [u w|u ch w Hin|ch w w' Hun Hcl|ch b w w' Hrecv|u msg w w' Hpub
    |c r w w' Hc|c r w w' Hc|c r w w' Hc|c r w w' Hc].
  - done.
  - unfold deregister. by destruct (index_of _ _).
  - unfold close in Hcl. destruct (heap w !! ch) as [q|]; [|done].
    destruct (closed q); [done|]. by injection Hcl as <-.
  - unfold receive in Hrecv. destruct (heap w !! ch) as [q|]; [|done].
    destruct (buf q); [done|]. by injection Hrecv as _ <-.
  - destruct (publishToUser_delivers u
                {| Type_ := "notification"; Data := [("message", VString msg)] |} w
                (wf_open w Hwf u)) as (w'' & Hp & Hd).
    unfold publishNotification in Hpub. assert (w'' = w') as -> by congruence.
    destruct Hd as (_ & -> & _). done.
  - unfold EnsureConversation in Hc. destruct (ctx_body c) as [p|].
    + unfold bind in Hc.
      destruct (ensureConversation _ _ _ w) as [[id err] w1|] eqn:He; [|done].
      apply ensureConversation_appends in He.
      destruct err; by injection Hc as _ <-.
    + by injection Hc as _ <-.
  - unfold SendMessage in Hc.
    destruct (ctx_user c) as [u|]; [|by injection Hc as _ <-].
    destruct (ctx_body c) as [p|]; [|by injection Hc as _ <-].
    destruct (_ || _); [by injection Hc as _ <-|].
    unfold bind at 1 in Hc.
    destruct (saveMessage _ _ _ w) as [[[msgID createdAt] err] w1|] eqn:Hs; [|done].
    apply saveMessage_conversations in Hs as [Hconv Hbus].
    destruct err; [injection Hc as _ <-; by rewrite Hconv|].
    unfold bind at 1 in Hc. rewrite getConversationParticipants_spec in Hc.
    unfold bind in Hc.
    destruct (for_each _ _ _) as [[] w3|] eqn:Hrun; [|done].
    injection Hc as _ <-.
    apply publish_each_db in Hrun as ->; [by rewrite <- Hconv|].
    apply bus_wf_set_db. by apply (bus_wf_same_bus w w1).
  - unfold Typing in Hc.
    destruct (ctx_user c) as [u|]; [|by injection Hc as _ <-].
    destruct (ctx_body c) as [p|]; [|by injection Hc as _ <-].
    unfold bind at 1 in Hc. rewrite getConversationParticipants_spec in Hc.
    unfold bind in Hc. rewrite for_each_skip in Hc.
    destruct (for_each _ _ _) as [[] w3|] eqn:Hrun; [|done].
    injection Hc as _ <-.
    apply publish_each_db in Hrun as ->; [done|]. by apply bus_wf_set_db.
  - unfold GetMessages in Hc.
    destruct (ctx_user c) as [u|]; [|by injection Hc as _ <-].
    unfold bind in Hc. rewrite with_db_Done, query_participants_spec in Hc.
    cbn [fst snd] in Hc.
    destruct (if default false (head (faults (db w))) then _ else _) as [e|[b s]];
      [by injection Hc as _ <-|].
    destruct (_ && _); [by injection Hc as _ <-|].
    rewrite with_db_Done in Hc. unfold query_messages in Hc.
    rewrite statement_spec in Hc. cbn [db set_db faults set_faults] in Hc.
    destruct (default false (head (tail (faults (db w))))); by injection Hc as _ <-.
Qed.

Lemma steps_conversations w w' :
  bus_wf w → rtc (step json_Marshal Atoi) w w' →
  bus_wf w' ∧ conversations (db w) `prefix_of` conversations (db w').
Proof.
  intros Hwf Hsteps. induction Hsteps as [w|w w1 w2 Hstep _ IH]; [done|].
  destruct IH as [Hwf2 Hpre]; [by apply (step_bus_wf w w1)|].
  split; [done|]. etrans; [by apply step_conversations|done].
Qed.

(** The id [ensureConversation] returned for a triple is the id it returns
    for that triple ever after, whatever the process did in between, as
    long as the store answers the two calls. *)
Lemma ensureConversation_stable p b s id w w1 w2 :
  bus_wf w → answers 2 (db w) →
  ensureConversation p b s w = Done (id, None) w1 →
  rtc (step json_Marshal Atoi) w1 w2 →
  answers 1 (db w2) →
  ∃ w3, ensureConversation p b s w2 = Done (id, None) w3
        ∧ conversations (db w3) = conversations (db w2).
Proof.
  intros Hwf Hans Hcall Hsteps Hans2.
  assert (Hrow : ∃ r, find (triple_matches p b s) (conversations (db w1)) = Some r
                      ∧ conv_id r = id ∧ same_bus w w1).
  { destruct (find (triple_matches p b s) (conversations (db w))) as [r|] eqn:Hfind.
    - rewrite (ensureConversation_found p b s w r) in Hcall;
        [|by apply (answers_le 1 2); [lia|]|done].
      injection Hcall as <- <-. exists r. split_and!; [done|done|apply same_bus_set_db].
    - destruct (ensureConversation_inserts p b s w Hans Hfind)
        as (w1' & Hc1 & Hrows & _ & _ & Hbus).
      rewrite Hc1 in Hcall. injection Hcall as <- <-.
      eexists. rewrite Hrows, find_app_None by done. simpl.
      assert (triple_matches p b s
                {| conv_id := next_conversation_id (db w); conv_product_id := p;
                   conv_buyer_id := b; conv_seller_id := s |} = true) as ->
        by by apply triple_matches_spec.
      done. }
  destruct Hrow as (r & Hfind1 & <- & Hbus).
  destruct (steps_conversations w1 w2) as [_ [rows Hrows]];
    [by apply (bus_wf_same_bus w w1)|done|].
  eexists. split.
  - apply ensureConversation_found; [done|]. rewrite Hrows. by apply find_app_Some.
  - done.
Qed.

End HandlerProofs.

(** ** The theorems at work on the example world *)

Lemma example_world_wf : bus_wf example_world.
Proof. apply bus_wf_run_ops, bus_wf_init. Qed.

Lemma example_store_answers n : answers n (db example_world).
Proof. by apply no_faults_answers. Qed.

Lemma example_store_fresh : message_ids_fresh (db example_world).
Proof. intros r Hr. by apply elem_of_nil in Hr. Qed.

Example example_world_subs :
  subs_of example_world 1 = [0%nat] ∧ subs_of example_world 2 = [1%nat; 2%nat].
Proof. split; reflexivity. Qed.

Example example_deregister_middle :
  subs_of (run_ops (example_ops ++ [Deregister 2 1%nat]) (init_world example_store 7)) 2
  = [2%nat].
Proof. reflexivity. Qed.

Example example_send_heap :
  heap example_world_after_send
  = [ {| buf := [example_marshal (message_event 1 1 1 "hi" 100)]; cap := 32; closed := false |};
      {| buf := [example_marshal (message_event 1 1 1 "hi" 100)]; cap := 32; closed := false |};
      {| buf := [example_marshal (message_event 1 1 1 "hi" 100)]; cap := 32; closed := false |} ].
Proof. vm_compute. reflexivity. Qed.

Example example_typing_heap :
  heap (world_of (Typing example_marshal example_typing_ctx example_world) example_world)
  = [ {| buf := []; cap := 32; closed := false |};
      {| buf := [example_marshal (typing_event 1 1)]; cap := 32; closed := false |};
      {| buf := [example_marshal (typing_event 1 1)]; cap := 32; closed := false |} ].
Proof. vm_compute. reflexivity. Qed.

Example example_full_buffer_is_skipped :
  select_send 0 [] (set_heap [ {| buf := [[]]; cap := 1; closed := false |} ] example_world)
  = Done tt (log (EDrop 0) (set_heap [ {| buf := [[]]; cap := 1; closed := false |} ] example_world)).
Proof. reflexivity. Qed.

Example example_second_cleanup_panics :
  bind (cleanup 1 0%nat) (λ _, cleanup 1 0%nat) example_world
  = Panic "close of closed channel".
Proof. vm_compute. reflexivity. Qed.

Example example_get_messages_participant :
  ∃ w', GetMessages example_atoi
          {| ctx_user := Some 2; ctx_body := None; ctx_params_id := "1" |}
          example_world_after_send
        = Done (success (MessagesData [new_message (db example_world) 1 1 "hi"])) w'.
Proof. eexists. vm_compute. reflexivity. Qed.

Lemma active_handles_are_net_effect_witness :
  bus_wf (init_world example_store 7)
  ∧ NoDup (subs_of (run_ops (example_ops ++ [Deregister 2 1%nat]) (init_world example_store 7)) 2)
  ∧ (∀ ch, ch ∈ subs_of (run_ops (example_ops ++ [Deregister 2 1%nat]) (init_world example_store 7)) 2
           ↔ ch ∈ net_effect 2 0 (list_to_set []) (example_ops ++ [Deregister 2 1%nat])).
Proof.
  split; [apply bus_wf_init|].
  destruct (active_handles_are_net_effect (example_ops ++ [Deregister 2 1%nat])
              (init_world example_store 7) 2 (bus_wf_init example_store 7))
    as (Hnd & Hnet & _).
  split; [exact Hnd|exact Hnet].
Defined.

Lemma publishToUser_best_effort_witness :
  bus_wf example_world
  ∧ ∃ w', publishToUser example_marshal 2 (typing_event 1 1) example_world = Done tt w'
          ∧ userStreams_m w' = userStreams_m example_world.
Proof.
  split; [apply example_world_wf|].
  destruct (publishToUser_best_effort example_marshal 2 (typing_event 1 1) example_world
              example_world_wf) as (w' & Hp & Hm & _).
  exists w'. split; [exact Hp|exact Hm].
Defined.

Lemma publishToUser_no_subscribers_witness :
  subs_of example_world 7 = []
  ∧ publishToUser example_marshal 7 (typing_event 1 1) example_world = Done tt example_world.
Proof.
  split; [reflexivity|].
  apply (publishToUser_no_subscribers example_marshal 7 (typing_event 1 1) example_world).
  reflexivity.
Defined.

Lemma example_send_succeeds :
  SendMessage example_marshal example_send_ctx example_world
  = Done (success NoData) example_world_after_send.
Proof. vm_compute. reflexivity. Qed.

Lemma SendMessage_publishes_to_participants_witness :
  SendMessage example_marshal example_send_ctx example_world
    = Done (success NoData) example_world_after_send
  ∧ messages (db example_world_after_send)
    = [{| msg_id := 1; msg_conversation_id := 1; msg_sender_id := 1;
          msg_content := "hi"; msg_created_at := 100; msg_read_at := None |}]
  ∧ ∃ k, heap example_world_after_send !! 2%nat
         = Some {| buf := replicate (S k)
                            (example_marshal
                               {| Type_ := "message";
                                  Data := [("id", VInt 1); ("conversation_id", VInt 1);
                                           ("sender_id", VInt 1);
                                           ("content", VString "hi");
                                           ("created_at", VTime 100)] |});
                   cap := 32; closed := false |}.
Proof.
  split; [apply example_send_succeeds|].
  destruct (SendMessage_publishes_to_participants example_marshal example_send_ctx 1
              {| sm_ConversationID := 1; sm_Content := "hi" |}
              {| conv_id := 1; conv_product_id := 5; conv_buyer_id := 1; conv_seller_id := 2 |}
              example_world example_world_after_send
              example_world_wf (example_store_answers 3) example_store_fresh
              eq_refl eq_refl eq_refl example_send_succeeds) as [Hmsg Hdel].
  split; [exact Hmsg|].
  apply (Hdel 2 2%nat (make_chan 32)).
  - right. reflexivity.
  - apply elem_of_cons. right. apply elem_of_cons. left. reflexivity.
  - reflexivity.
  - simpl. lia.
Defined.

Lemma Typing_notifies_other_participants_witness :
  bus_wf example_world
  ∧ ∃ w', Typing example_marshal example_typing_ctx example_world = Done (success NoData) w'
          ∧ (∃ k, heap w' !! 1%nat
                  = Some {| buf := replicate (S k)
                                     (example_marshal
                                        {| Type_ := "typing";
                                           Data := [("conversation_id", VInt 1);
                                                    ("user_id", VInt 1)] |});
                            cap := 32; closed := false |})
          ∧ (∀ ch q, ch ∈ subs_of example_world 1 →
                     heap example_world !! ch = Some q → heap w' !! ch = Some q).
Proof.
  split; [apply example_world_wf|].
  destruct (Typing_notifies_other_participants example_marshal example_typing_ctx 1
              {| ty_ConversationID := 1 |}
              {| conv_id := 1; conv_product_id := 5; conv_buyer_id := 1; conv_seller_id := 2 |}
              example_world example_world_wf (example_store_answers 1)
              eq_refl eq_refl eq_refl) as (w' & Ht & Hothers & Hself).
  exists w'. split; [exact Ht|]. split; [|exact Hself].
  apply (Hothers 2 1%nat (make_chan 32)).
  - right. reflexivity.
  - discriminate.
  - apply elem_of_cons. left. reflexivity.
  - reflexivity.
  - simpl. lia.
Defined.

Lemma ensureConversation_idempotent_witness :
  answers 3 (db example_world)
  ∧ ∃ id w1 w2,
      ensureConversation 5 1 2 example_world = Done (id, None) w1
      ∧ ensureConversation 5 1 2 w1 = Done (id, None) w2.
Proof.
  split; [apply example_store_answers|].
  destruct (ensureConversation_idempotent 5 1 2 example_world (example_store_answers 3))
    as (id & w1 & w2 & H1 & H2 & _).
  exists id, w1, w2. split; [exact H1|exact H2].
Defined.

Lemma SendMessage_rejects_invalid_witness :
  SendMessage example_marshal empty_send_ctx example_world = Done ErrBadRequest example_world.
Proof.
  apply (SendMessage_rejects_invalid example_marshal empty_send_ctx 1
           {| sm_ConversationID := 1; sm_Content := "" |} example_world).
  - reflexivity.
  - reflexivity.
  - left. reflexivity.
Defined.

Lemma GetMessages_access_control_witness :
  ∃ r w', GetMessages example_atoi stranger_get_ctx example_world = Done r w'
          ∧ r = ErrForbidden ∧ disclosed_messages r = [].
Proof.
  destruct (GetMessages_access_control example_atoi stranger_get_ctx 3 example_world eq_refl)
    as (r & w' & Hget & _ & _ & Hrow).
  destruct (Hrow {| conv_id := 1; conv_product_id := 5; conv_buyer_id := 1; conv_seller_id := 2 |}
              eq_refl) as (Hforbidden & _ & Hnone).
  { intros [H|H]; discriminate H. }
  exists r, w'. split; [exact Hget|]. split; [|exact Hnone].
  apply Hforbidden, example_store_answers.
Defined.


(** C8 does not hold of the code: [SendMessage] never looks at the
    conversation's buyer and seller before it inserts.  User 3, who is
    neither the buyer (1) nor the seller (2) of conversation 1, sends a
    message to it; the call succeeds and the row is stored with sender 3
    ([GetMessages], by contrast, refuses the same user). *)
Theorem SendMessage_accepts_non_participant :
  SendMessage example_marshal stranger_send_ctx example_world
    = Done (success NoData) stranger_world_after_send
  ∧ messages (db stranger_world_after_send)
    = [{| msg_id := 1; msg_conversation_id := 1; msg_sender_id := 3;
          msg_content := "psst"; msg_created_at := 100; msg_read_at := None |}]
  ∧ find_conversation 1 (db stranger_world_after_send)
    = Some {| conv_id := 1; conv_product_id := 5; conv_buyer_id := 1; conv_seller_id := 2 |}
  ∧ ¬ is_participant 3
        {| conv_id := 1; conv_product_id := 5; conv_buyer_id := 1; conv_seller_id := 2 |}.
Proof.
  split_and!.
  - vm_compute. reflexivity.
  - vm_compute. reflexivity.
  - vm_compute. reflexivity.
  - intros [H|H]; discriminate H.
Qed.

(** * Further properties of the event bus *)

Lemma index_of_snoc_fresh h (l : list nat) :
  h ∉ l → index_of h (l ++ [h]) = Some (length l).
Proof.
  induction l as [|x l IH]; simpl; intros Hnin.
  - by rewrite decide_True.
  - apply not_elem_of_cons in Hnin as [Hne Hnin].
    rewrite decide_False by done. by rewrite IH.
Qed.

Lemma register_db u w : db (register u w).2 = db w.
Proof. reflexivity. Qed.

Lemma deregister_db u ch w : db (deregister u ch w) = db w.
Proof. unfold deregister. by destruct (index_of _ _). Qed.

Lemma deregister_trace u ch w : trace (deregister u ch w) = trace w.
Proof. unfold deregister. by destruct (index_of _ _). Qed.

(** Registering and then deregistering the handle gives back every list. *)
Lemma register_deregister_subs u w u' :
  bus_wf w →
  subs_of (deregister u (register u w).1 (register u w).2) u' = subs_of w u'.
Proof.
  intros Hwf. rewrite deregister_subs, !register_subs, register_handle.
  destruct (decide (u = u')) as [<-|Hne]; [|done].
  rewrite decide_True by done.
  assert (Hfresh : length (heap w) ∉ subs_of w u).
  { intros Hin%(wf_allocated w u _ Hwf). lia. }
  rewrite (index_of_snoc_fresh _ _ Hfresh).
  rewrite take_app_length. rewrite drop_ge by (rewrite length_app; simpl; lia).
  by rewrite app_nil_r.
Qed.

(** X1: in a well-formed world [register] hands out a handle that no user
    has, appends it to the end of the caller's list and to no other list,
    allocates for it an open, empty channel of capacity 32, and leaves
    every existing channel and the store as they were. *)
Theorem register_hands_out_fresh_channel u w :
  bus_wf w →
  (∀ u', (register u w).1 ∉ subs_of w u')
  ∧ subs_of (register u w).2 u = subs_of w u ++ [(register u w).1]
  ∧ (∀ u', u' ≠ u → subs_of (register u w).2 u' = subs_of w u')
  ∧ heap (register u w).2 !! (register u w).1
    = Some {| buf := []; cap := 32; closed := false |}
  ∧ (∀ ch q, heap w !! ch = Some q → heap (register u w).2 !! ch = Some q)
  ∧ db (register u w).2 = db w
  ∧ bus_wf (register u w).2.
Proof.
  intros Hwf. rewrite register_handle. split_and!.
  - intros u' Hin%(wf_allocated w u' _ Hwf). lia.
  - rewrite register_subs. by rewrite decide_True.
  - intros u' Hne. rewrite register_subs. by rewrite decide_False.
  - rewrite register_heap, lookup_app_r by lia. by rewrite Nat.sub_diag.
  - intros ch q Hq. rewrite register_heap. by apply lookup_app_l_Some.
  - done.
  - by apply bus_wf_register.
Qed.

(** X2: deregistering the handle that [register] has just handed out
    restores every user's list of channels. *)
Theorem register_then_deregister u w u' :
  bus_wf w →
  subs_of (run_ops [Register u; Deregister u (length (heap w))] w) u' = subs_of w u'.
Proof. intros Hwf. by apply (register_deregister_subs u w u'). Qed.

(** X3: the deferred cleanup of a registered connection returns without a
    panic; afterwards exactly that channel is missing from the lists, it
    is closed with its queued payloads kept, every other channel and the
    store are as before, and the bus is still well formed. *)
Theorem cleanup_unlinks_and_closes u ch w :
  bus_wf w → ch ∈ subs_of w u →
  ∃ w' q, cleanup u ch w = Done tt w'
    ∧ (∀ u' x, x ∈ subs_of w' u' ↔ x ∈ subs_of w u' ∧ x ≠ ch)
    ∧ heap w !! ch = Some q
    ∧ heap w' !! ch = Some {| buf := buf q; cap := cap q; closed := true |}
    ∧ (∀ x, x ≠ ch → heap w' !! x = heap w !! x)
    ∧ db w' = db w
    ∧ bus_wf w'.
Proof.
  intros Hwf Hin.
  destruct (cleanup_registered u ch w Hwf Hin) as (w' & Hc & Hwf' & _ & Hmem & _).
  destruct (wf_open w Hwf u ch Hin) as (q & Hq & Hopen).
  exists w', q. split; [done|]. split; [done|]. split; [done|].
  unfold cleanup, close in Hc. rewrite deregister_heap, Hq, Hopen in Hc.
  injection Hc as <-. cbn [heap set_heap db]. rewrite deregister_db.
  split_and!; [|by intros x Hne; rewrite list_lookup_insert_ne|done|done].
  by rewrite list_lookup_insert_eq by by eapply lookup_lt_Some.
Qed.

Lemma bus_wf_extend w w' :
  (∀ u, subs_of w' u = subs_of w u) →
  (∀ ch q, heap w !! ch = Some q → heap w' !! ch = Some q) →
  bus_wf w → bus_wf w'.
Proof.
  intros Hsubs Hheap Hwf. split.
  - intros u ch. rewrite Hsubs. intros Hin.
    destruct (wf_open w Hwf u ch Hin) as (q & Hq & Ho). exists q. auto.
  - intros u. rewrite Hsubs. apply (wf_nodup w Hwf).
  - intros u1 u2 ch. rewrite !Hsubs. apply (wf_owner w Hwf).
Qed.

Lemma set_heap_id w : set_heap (heap w) w = w.
Proof. by destruct w. Qed.

(** The writer's loop empties the buffer, oldest payload first. *)
Lemma writer_loop_drains fuel ch out w q :
  heap w !! ch = Some q → (length (buf q) < fuel)%nat →
  writer_loop fuel ch out w =
  (out ++ concat (frame <$> buf q),
   if closed q then WriterFinished else WriterWaiting,
   set_heap (<[ch := {| buf := []; cap := cap q; closed := closed q |}]> (heap w)) w).
Proof.
  destruct q as [bs n cl]. simpl. revert fuel out w.
  induction bs as [|b bs IH]; intros fuel out w Hq Hfuel.
  - destruct fuel as [|fuel]; [simpl in Hfuel; lia|]. simpl.
    unfold receive. rewrite Hq. simpl.
    rewrite app_nil_r, list_insert_id by done. by rewrite set_heap_id.
  - destruct fuel as [|fuel]; [simpl in Hfuel; lia|]. simpl in Hfuel.
    cbn [writer_loop]. unfold receive at 1. rewrite Hq. cbn [buf cap closed].
    rewrite (IH fuel (out ++ frame b)
               (set_heap (<[ch := {| buf := bs; cap := n; closed := cl |}]> (heap w)) w));
      [|cbn [heap set_heap]; by rewrite list_lookup_insert_eq by by eapply lookup_lt_Some|lia].
    cbn [heap set_heap]. rewrite list_insert_insert_eq.
    rewrite fmap_cons. cbn [concat]. by rewrite <- app_assoc.
Qed.


Section StreamProofs.

Variable AuthMiddleware : string → option Z.

(** X5: [Stream] takes the caller's identity from the context or, failing
    that, from a non-empty query token presented as a bearer credential;
    without either it returns the unauthorized error and leaves the world
    untouched: no channel is made and nobody is registered. *)
Theorem Stream_requires_identity c w :
  sc_user c = None →
  sc_query_token c = "" ∨ AuthMiddleware ("Bearer " ++ sc_query_token c) = None →
  Stream AuthMiddleware c w = Done (inl ErrUnauthorized) w.
Proof.
  intros Hu Htok. unfold Stream, Stream_authenticate. rewrite Hu.
  destruct Htok as [->| ->]; [done|]. by case_bool_decide.
Qed.

Lemma Stream_authenticate_cases c u :
  Stream_authenticate AuthMiddleware c = Some u ↔
  sc_user c = Some u
  ∨ (sc_user c = None ∧ sc_query_token c ≠ ""
     ∧ AuthMiddleware ("Bearer " ++ sc_query_token c) = Some u).
Proof.
  unfold Stream_authenticate. destruct (sc_user c) as [u'|].
  - split; [by left|]. intros [?|[? _]]; done.
  - case_bool_decide as Htok.
    + split; [done|]. intros [?|(_ & ? & _)]; done.
    + split; [by right|]. intros [?|(_ & _ & ?)]; done.
Qed.

(** X6: for an identified caller in a well-formed world [Stream] returns
    without a panic, and by the time it returns its deferred cleanup has
    run: every user's list of channels is what it was before the call,
    the channel made for the connection is closed and empty, and the
    installed writer, when run, writes nothing and leaves its loop. *)
Theorem Stream_returns_deregistered c u w fuel :
  bus_wf w →
  sc_user c = Some u
  ∨ (sc_user c = None ∧ sc_query_token c ≠ ""
     ∧ AuthMiddleware ("Bearer " ++ sc_query_token c) = Some u) →
  ∃ w', Stream AuthMiddleware c w = Done (inr (length (heap w))) w'
    ∧ (∀ u', subs_of w' u' = subs_of w u')
    ∧ heap w' = heap w ++ [{| buf := []; cap := 32; closed := true |}]
    ∧ db w' = db w ∧ trace w' = trace w
    ∧ bus_wf w'
    ∧ writer_loop (S fuel) (length (heap w)) [] w' = ([], WriterFinished, w').
Proof.
  intros Hwf Hauth%Stream_authenticate_cases.
  unfold Stream. rewrite Hauth.
  change (register u w) with (length (heap w), (register u w).2).
  cbv beta iota. unfold bind, cleanup, close.
  rewrite deregister_heap, register_heap.
  rewrite lookup_app_r by lia. rewrite Nat.sub_diag. cbn [lookup list_lookup make_chan closed buf cap].
  eexists. split; [reflexivity|].
  assert (Hheap : <[length (heap w) := {| buf := []; cap := 32; closed := true |}]>
                    (heap w ++ [make_chan 32])
                  = heap w ++ [{| buf := []; cap := 32; closed := true |}]).
  { rewrite insert_app_r_alt by lia. by rewrite Nat.sub_diag. }
  cbn [heap set_heap db trace]. rewrite Hheap, deregister_db, deregister_trace.
  assert (Hsubs : ∀ u', subs_of (set_heap (heap w ++ [{| buf := []; cap := 32; closed := true |}])
                           (deregister u (length (heap w)) (register u w).2)) u'
                        = subs_of w u').
  { intros u'. rewrite subs_of_set_heap. apply (register_deregister_subs u w u' Hwf). }
  split_and!; [exact Hsubs|done|done|done| |].
  - apply (bus_wf_extend w); [exact Hsubs| |done].
    intros ch q Hq. cbn [heap set_heap]. by apply lookup_app_l_Some.
  - rewrite (writer_loop_drains (S fuel) (length (heap w)) []
               _ {| buf := []; cap := 32; closed := true |}).
    + cbn [heap set_heap buf cap closed fmap list_fmap concat app].
      rewrite list_insert_id; [reflexivity|].
      rewrite lookup_app_r by lia. by rewrite Nat.sub_diag.
    + cbn [heap set_heap]. rewrite lookup_app_r by lia. by rewrite Nat.sub_diag.
    + simpl. lia.
Qed.

End StreamProofs.

Section BurstProofs.

Variable json_Marshal : sseEvent → Bytes.

(** One publish, seen from one channel of the user. *)
Lemma publishToUser_on_channel u evt w ch q :
  bus_wf w → ch ∈ subs_of w u → heap w !! ch = Some q →
  ∃ w', publishToUser json_Marshal u evt w = Done tt w'
    ∧ bus_wf w'
    ∧ userStreams_m w' = userStreams_m w ∧ db w' = db w
    ∧ heap w' !! ch = Some (if has_room q then push 1 (json_Marshal evt) q else q).
Proof.
  intros Hwf Hin Hq.
  destruct (publishToUser_spec json_Marshal u evt w (wf_open w Hwf u))
    as (w' & Hp & Hm & Hd & Hl & Hh).
  exists w'. split; [done|].
  assert (Hbus : same_bus w w').
  { split_and!; [done|done|]. intros x c Hc.
    destruct (Hh x c Hc) as (k & Hk & _). by exists (push k (json_Marshal evt) c). }
  split; [by apply (bus_wf_same_bus w w')|]. split_and!; [done|done|].
  destruct (Hh ch q Hq) as (k & Hk & _ & Hfull & Hroom & Hnd).
  rewrite Hk. f_equal. destruct (has_room q) eqn:E.
  - specialize (Hroom Hin eq_refl). specialize (Hnd (wf_nodup w Hwf u)).
    by replace k with 1%nat by lia.
  - rewrite (Hfull eq_refl). apply push_0.
Qed.

Lemma publish_all_channel u evts w ch q :
  bus_wf w → ch ∈ subs_of w u → heap w !! ch = Some q →
  (length (buf q) ≤ cap q)%nat →
  ∃ w', publish_all json_Marshal u evts w = Done tt w'
    ∧ bus_wf w'
    ∧ userStreams_m w' = userStreams_m w ∧ db w' = db w
    ∧ heap w' !! ch
      = Some {| buf := take (cap q) (buf q ++ (json_Marshal <$> evts));
                cap := cap q; closed := closed q |}.
Proof.
  revert w q. induction evts as [|evt evts IH]; intros w q Hwf Hin Hq Hlen.
  - exists w. split; [done|]. split_and!; [done|done|done|].
    rewrite Hq. f_equal. destruct q as [bs n cl]; simpl in *.
    by rewrite app_nil_r, take_ge.
  - destruct (publishToUser_on_channel u evt w ch q Hwf Hin Hq)
      as (w1 & Hp & Hwf1 & Hm1 & Hd1 & Hq1).
    assert (Hin1 : ch ∈ subs_of w1 u) by by rewrite (subs_of_same_m w w1).
    unfold has_room in Hq1.
    destruct (length (buf q) <? cap q)%nat eqn:E.
    + apply Nat.ltb_lt in E.
      destruct (IH w1 _ Hwf1 Hin1 Hq1) as (w' & Hr & Hwf' & Hm & Hd & Hq').
      { simpl. rewrite length_app. simpl. lia. }
      exists w'. split.
      { unfold publish_all in *. simpl. by rewrite (bind_Done _ _ _ _ _ Hp). }
      split_and!; [done|congruence|congruence|].
      rewrite Hq'. simpl. by rewrite <- app_assoc.
    + apply Nat.ltb_ge in E.
      destruct (IH w1 _ Hwf1 Hin1 Hq1 Hlen) as (w' & Hr & Hwf' & Hm & Hd & Hq').
      exists w'. split.
      { unfold publish_all in *. simpl. by rewrite (bind_Done _ _ _ _ _ Hp). }
      split_and!; [done|congruence|congruence|].
      rewrite Hq'. by rewrite !take_app_le by lia.
Qed.

(** X7: a burst of events published to a user reaches each of the user's
    channels in publish order and only as far as the channel has room:
    afterwards the buffer is the first [cap] entries of what was queued
    followed by the serialised events, so the events that did not fit are
    dropped and nothing queued earlier is lost or reordered. *)
Theorem publish_burst_keeps_oldest u evts w ch q :
  bus_wf w → ch ∈ subs_of w u → heap w !! ch = Some q →
  (length (buf q) ≤ cap q)%nat →
  ∃ w', publish_all json_Marshal u evts w = Done tt w'
    ∧ heap w' !! ch
      = Some {| buf := take (cap q) (buf q ++ (json_Marshal <$> evts));
                cap := cap q; closed := false |}
    ∧ (∀ u', subs_of w' u' = subs_of w u') ∧ db w' = db w.
Proof.
  intros Hwf Hin Hq Hlen.
  destruct (publish_all_channel u evts w ch q Hwf Hin Hq Hlen)
    as (w' & Hp & _ & Hm & Hd & Hq').
  destruct (wf_open w Hwf u ch Hin) as (q0 & Hq0 & Hopen).
  assert (q0 = q) as -> by congruence.
  exists w'. split; [done|]. rewrite Hq', Hopen.
  split_and!; [done| |done]. intros u'. by apply subs_of_same_m.
Qed.


End BurstProofs.

(** * Invariants kept by every step *)

Lemma query_message_created_at_snd id64 d :
  (query_message_created_at id64 d).2 = set_faults (tail (faults d)) d.
Proof.
  unfold query_message_created_at. rewrite statement_spec.
  destruct (default false (head (faults d))); [done|]. by destruct (find _ _).
Qed.

Lemma query_messages_spec convID d :
  query_messages convID d =
  (if default false (head (faults d)) then inl store_failure
   else inr (order_by_created_at
               (filter (λ r, msg_conversation_id r = convID) (messages d))),
   set_faults (tail (faults d)) d).
Proof.
  unfold query_messages. rewrite statement_spec.
  by destruct (default false (head (faults d))).
Qed.

Lemma select_send_kept ch payload w w' :
  select_send ch payload w = Done tt w' →
  userStreams_m w' = userStreams_m w ∧ db w' = db w
  ∧ (buffers_bounded w → buffers_bounded w').
Proof.
  unfold select_send. destruct (heap w !! ch) as [q|] eqn:Hq.
  - destruct (closed q); [done|].
    destruct (length (buf q) <? cap q)%nat eqn:E; intros [= <-]; [|done].
    split_and!; [done|done|]. intros Hb x q' Hx. cbn [heap log set_heap] in Hx.
    destruct (decide (x = ch)) as [->|Hne].
    + rewrite list_lookup_insert_eq in Hx by by eapply lookup_lt_Some.
      injection Hx as <-. destruct (Hb ch q Hq) as [Hcap _]. simpl.
      apply Nat.ltb_lt in E. rewrite length_app. simpl. lia.
    + rewrite list_lookup_insert_ne in Hx by done. by apply (Hb x).
  - by intros [= <-].
Qed.

Lemma send_all_kept subs payload w w' :
  send_all subs payload w = Done tt w' →
  userStreams_m w' = userStreams_m w ∧ db w' = db w
  ∧ (buffers_bounded w → buffers_bounded w').
Proof.
  revert w. induction subs as [|ch rest IH]; intros w; simpl.
  - by intros [= <-].
  - unfold bind. destruct (select_send ch payload w) as [[] w1|] eqn:E; [|done].
    intros Hrest. apply select_send_kept in E as (Hm1 & Hd1 & Hb1).
    apply IH in Hrest as (Hm & Hd & Hb). split_and!; [congruence|congruence|auto].
Qed.

Section Preservation.

Variable json_Marshal : sseEvent → Bytes.
Variable Atoi : string → Z.

(** A property of the store that no statement of the handlers breaks. *)
Variable I : Store → Prop.
Hypothesis I_faults : ∀ fs d, I d → I (set_faults fs d).
Hypothesis I_conversation :
  ∀ p b s d, I d → I (exec_insert_conversation p b s d).2.
Hypothesis I_message :
  ∀ cid u content d, I d → I (exec_insert_message cid u content d).2.

Lemma publishToUser_kept u evt w w' :
  publishToUser json_Marshal u evt w = Done tt w' →
  userStreams_m w' = userStreams_m w ∧ db w' = db w
  ∧ (buffers_bounded w → buffers_bounded w').
Proof.
  unfold publishToUser. destruct (length (subs_of w u) =? 0)%nat.
  - by intros [= <-].
  - intros H%send_all_kept. exact H.
Qed.

Lemma for_each_publish_kept (ps : list Z) evt w w' :
  for_each ps (λ pid, publishToUser json_Marshal pid evt) w = Done tt w' →
  userStreams_m w' = userStreams_m w ∧ db w' = db w
  ∧ (buffers_bounded w → buffers_bounded w').
Proof.
  revert w. induction ps as [|p ps IH]; intros w; simpl.
  - by intros [= <-].
  - unfold bind. destruct (publishToUser json_Marshal p evt w) as [[] w1|] eqn:E; [|done].
    intros Hrest. apply publishToUser_kept in E as (Hm1 & Hd1 & Hb1).
    apply IH in Hrest as (Hm & Hd & Hb). split_and!; [congruence|congruence|auto].
Qed.

Lemma ensureConversation_kept p b s w r w' :
  ensureConversation p b s w = Done r w' →
  I (db w) → w' = set_db (db w') w ∧ I (db w').
Proof.
  unfold ensureConversation, bind. rewrite with_db_Done, query_conversation_id_spec.
  cbn [fst snd]. intros Hrun HI.
  destruct (if default false (head (faults (db w))) then _ else _) as [e|id].
  - rewrite with_db_Done in Hrun.
    pose proof (I_conversation p b s _ (I_faults (tail (faults (db w))) _ HI)) as HI2.
    cbn [db set_db] in Hrun.
    destruct (exec_insert_conversation p b s _) as [[e'|id] d2]; cbn [fst snd] in *;
      injection Hrun as _ <-; done.
  - injection Hrun as _ <-. split; [done|]. by apply I_faults.
Qed.

Lemma saveMessage_kept cid u content w r w' :
  saveMessage cid u content w = Done r w' →
  I (db w) → w' = set_db (db w') w ∧ I (db w').
Proof.
  unfold saveMessage, bind. rewrite with_db_Done. intros Hrun HI.
  pose proof (I_message cid u content _ HI) as HI1.
  destruct (exec_insert_message cid u content (db w)) as [[e|id64] d1]; cbn [fst snd] in *.
  - by injection Hrun as _ <-.
  - rewrite with_db_Done in Hrun. cbn [db set_db] in Hrun.
    pose proof (query_message_created_at_snd id64 d1) as Hsnd.
    destruct (query_message_created_at id64 d1) as [t d2]; cbn [fst snd] in *.
    injection Hrun as _ <-. split; [done|]. cbn [db set_db]. subst d2. by apply I_faults.
Qed.

Lemma SendMessage_kept c r w w' :
  SendMessage json_Marshal c w = Done r w' →
  I (db w) →
  userStreams_m w' = userStreams_m w
  ∧ (buffers_bounded w → buffers_bounded w') ∧ I (db w').
Proof.
  unfold SendMessage. intros Hrun HI.
  destruct (ctx_user c) as [u|]; [|by injection Hrun as _ <-].
  destruct (ctx_body c) as [p|]; [|by injection Hrun as _ <-].
  destruct (_ || _); [by injection Hrun as _ <-|].
  unfold bind at 1 in Hrun.
  destruct (saveMessage _ _ _ w) as [[[msgID createdAt] err] w1|] eqn:Hs; [|done].
  apply saveMessage_kept in Hs as [Hw1 HI1]; [|done].
  destruct err; [injection Hrun as _ <-; by rewrite Hw1|].
  unfold bind at 1 in Hrun. rewrite getConversationParticipants_spec in Hrun.
  unfold bind in Hrun.
  destruct (for_each _ _ _) as [[] w3|] eqn:Hpub; [|done].
  injection Hrun as _ <-.
  apply for_each_publish_kept in Hpub as (Hm & Hd & Hb3).
  split_and!.
  - rewrite Hm. cbn [userStreams_m set_db]. by rewrite Hw1.
  - intros Hb. apply Hb3. intros x q Hx. cbn [heap set_db] in Hx.
    rewrite Hw1 in Hx. by apply (Hb x).
  - rewrite Hd. cbn [db set_db]. by apply I_faults.
Qed.

Lemma Typing_kept c r w w' :
  Typing json_Marshal c w = Done r w' →
  I (db w) →
  userStreams_m w' = userStreams_m w
  ∧ (buffers_bounded w → buffers_bounded w') ∧ I (db w').
Proof.
  unfold Typing. intros Hrun HI.
  destruct (ctx_user c) as [u|]; [|by injection Hrun as _ <-].
  destruct (ctx_body c) as [p|]; [|by injection Hrun as _ <-].
  unfold bind at 1 in Hrun. rewrite getConversationParticipants_spec in Hrun.
  unfold bind in Hrun. rewrite for_each_skip in Hrun.
  destruct (for_each _ _ _) as [[] w3|] eqn:Hpub; [|done].
  injection Hrun as _ <-.
  apply for_each_publish_kept in Hpub as (Hm & Hd & Hb3).
  split_and!; [by rewrite Hm|exact Hb3|].
  rewrite Hd. cbn [db set_db]. by apply I_faults.
Qed.

Lemma GetMessages_kept c r w w' :
  GetMessages Atoi c w = Done r w' →
  I (db w) → w' = set_db (db w') w ∧ I (db w').
Proof.
  unfold GetMessages. intros Hrun HI.
  destruct (ctx_user c) as [u|]; [|injection Hrun as _ <-; by rewrite set_db_db].
  unfold bind in Hrun. rewrite with_db_Done, query_participants_spec in Hrun.
  cbn [fst snd] in Hrun.
  destruct (if default false (head (faults (db w))) then _ else _) as [e|[b s]];
    [injection Hrun as _ <-; split; [done|by apply I_faults]|].
  destruct (_ && _); [injection Hrun as _ <-; split; [done|by apply I_faults]|].
  rewrite with_db_Done, query_messages_spec in Hrun. cbn [fst snd db set_db] in Hrun.
  destruct (if default false _ then _ else _); injection Hrun as _ <-;
    (split; [done|by do 2 apply I_faults]).
Qed.

Lemma EnsureConversation_kept c r w w' :
  EnsureConversation c w = Done r w' →
  I (db w) → w' = set_db (db w') w ∧ I (db w').
Proof.
  unfold EnsureConversation. intros Hrun HI.
  destruct (ctx_body c) as [p|]; [|injection Hrun as _ <-; by rewrite set_db_db].
  unfold bind in Hrun.
  destruct (ensureConversation _ _ _ w) as [[id err] w1|] eqn:He; [|done].
  apply ensureConversation_kept in He as [Hw1 HI1]; [|done].
  destruct err; injection Hrun as _ <-; done.
Qed.

Lemma step_kept w w' :
  step json_Marshal Atoi w w' →
  I (db w) → (buffers_bounded w → buffers_bounded w') ∧ I (db w').
Proof.
  intros Hstep HI. destruct Hstep as
    [u w|u ch w Hin|ch w w' Hun Hcl|ch b w w' Hrecv|u msg w w' Hpub
    |c r w w' Hc|c r w w' Hc|c r w w' Hc|c r w w' Hc].
  - split; [|done]. intros Hb x q. rewrite register_heap.
    intros [Hx|[_ Hx]]%lookup_app_Some; [by apply (Hb x)|].
    destruct (x - length (heap w))%nat; simpl in Hx; [|done].
    injection Hx as <-. simpl. split; [done|lia].
  - rewrite deregister_db. split; [|done].
    intros Hb x q. rewrite deregister_heap. apply Hb.
  - unfold close in Hcl. destruct (heap w !! ch) as [q0|] eqn:Hq; [|done].
    destruct (closed q0); [done|]. injection Hcl as <-. split; [|done].
    intros Hb x q Hx. cbn [heap set_heap] in Hx. destruct (decide (x = ch)) as [->|Hne].
    + rewrite list_lookup_insert_eq in Hx by by eapply lookup_lt_Some.
      injection Hx as <-. by apply (Hb ch q0).
    + rewrite list_lookup_insert_ne in Hx by done. by apply (Hb x).
  - unfold receive in Hrecv. destruct (heap w !! ch) as [q0|] eqn:Hq; [|done].
    destruct (buf q0) as [|b0 rest] eqn:Hbuf; [done|]. injection Hrecv as _ <-.
    split; [|done]. intros Hb x q Hx. cbn [heap set_heap] in Hx.
    destruct (decide (x = ch)) as [->|Hne].
    + rewrite list_lookup_insert_eq in Hx by by eapply lookup_lt_Some.
      injection Hx as <-. destruct (Hb ch q0 Hq) as [Hcap Hlen]. rewrite Hbuf in Hlen.
      simpl in *. split; [done|lia].
    + rewrite list_lookup_insert_ne in Hx by done. by apply (Hb x).
  - apply publishToUser_kept in Hpub as (_ & Hd & Hb'). rewrite Hd. auto.
  - apply EnsureConversation_kept in Hc as [Hw HI']; [|done]. split; [|done].
    intros Hb x q Hx. rewrite Hw in Hx. by apply (Hb x).
  - apply SendMessage_kept in Hc as (_ & ? & ?); done.
  - apply Typing_kept in Hc as (_ & ? & ?); done.
  - apply GetMessages_kept in Hc as [Hw HI']; [|done]. split; [|done].
    intros Hb x q Hx. rewrite Hw in Hx. by apply (Hb x).
Qed.

Lemma steps_kept w w' :
  rtc (step json_Marshal Atoi) w w' →
  I (db w) → (buffers_bounded w → buffers_bounded w') ∧ I (db w').
Proof.
  induction 1 as [w|w w1 w2 Hstep _ IH]; [done|].
  intros HI. destruct (step_kept w w1 Hstep HI) as [Hb1 HI1].
  destruct (IH HI1) as [Hb2 HI2]. auto.
Qed.

End Preservation.

Lemma store_wf_set_faults fs d : store_wf d → store_wf (set_faults fs d).
Proof. intros [H1 H2 H3 H4]. by split. Qed.

Lemma store_wf_insert_conversation p b s d :
  store_wf d → store_wf (exec_insert_conversation p b s d).2.
Proof.
  intros Hwf. unfold exec_insert_conversation. rewrite statement_spec.
  destruct (default false (head (faults d))); [by apply store_wf_set_faults|].
  destruct Hwf as [Hfresh Hnd Hmf Hmnd]. split; cbn [snd conversations messages
    next_conversation_id next_message_id set_faults]; [| |done|done].
  - intros r. rewrite elem_of_app, list_elem_of_singleton. intros [Hin| ->].
    + apply Hfresh in Hin. lia.
    + simpl. lia.
  - rewrite fmap_app. apply NoDup_app. split_and!; [done| |apply NoDup_singleton].
    intros x (r & -> & Hr)%list_elem_of_fmap Hx%list_elem_of_singleton.
    simpl in Hx. apply Hfresh in Hr. lia.
Qed.

Lemma store_wf_insert_message cid u content d :
  store_wf d → store_wf (exec_insert_message cid u content d).2.
Proof.
  intros Hwf. unfold exec_insert_message. rewrite statement_spec.
  destruct (default false (head (faults d))); [by apply store_wf_set_faults|].
  destruct Hwf as [Hfresh Hnd Hmf Hmnd]. split; cbn [snd conversations messages
    next_conversation_id next_message_id set_faults]; [done|done| |].
  - intros r. cbn [messages next_message_id].
    rewrite elem_of_app, list_elem_of_singleton. intros [Hin| ->].
    + apply Hmf in Hin. lia.
    + simpl. lia.
  - rewrite fmap_app. apply NoDup_app. split_and!; [done| |apply NoDup_singleton].
    intros x (r & -> & Hr)%list_elem_of_fmap Hx%list_elem_of_singleton.
    simpl in Hx. apply Hmf in Hr. lia.
Qed.

(** X9: in every world the process can reach, every channel has capacity
    32 and holds at most 32 payloads: neither a publish nor anything else
    ever queues past the capacity. *)
Theorem reachable_buffers_bounded json_Marshal Atoi w :
  reachable json_Marshal Atoi w → buffers_bounded w.
Proof.
  induction 1 as [d t|w w' _ IH Hstep].
  - intros ch q Hq. simpl in Hq. done.
  - destruct (step_kept json_Marshal Atoi (λ _, True)
                (λ _ _ _, I) (λ _ _ _ _ _, I) (λ _ _ _ _ _, I) w w' Hstep I) as [Hb _].
    by apply Hb.
Qed.

(** Whatever the process does, and whichever statements fail, the ids of
    the conversation rows stay pairwise distinct and below the store's
    counter, and so do the ids of the message rows. *)
Theorem steps_keep_row_ids_unique json_Marshal Atoi w w' :
  rtc (step json_Marshal Atoi) w w' →
  store_wf (db w) → store_wf (db w').
Proof.
  intros Hsteps Hwf.
  by destruct (steps_kept json_Marshal Atoi store_wf store_wf_set_faults
                 store_wf_insert_conversation store_wf_insert_message w w' Hsteps Hwf).
Qed.

(** * Listings *)

Lemma insert_by_created_at_perm r l : insert_by_created_at r l ≡ₚ r :: l.
Proof.
  induction l as [|r' l IH]; simpl; [done|].
  destruct (msg_created_at r <? msg_created_at r'); [done|].
  rewrite IH. apply Permutation_swap.
Qed.

Lemma order_by_created_at_perm l : order_by_created_at l ≡ₚ l.
Proof.
  induction l as [|r l IH]; simpl; [done|].
  by rewrite insert_by_created_at_perm, IH.
Qed.

Lemma insert_by_created_at_sorted r l :
  StronglySorted by_created_at l → StronglySorted by_created_at (insert_by_created_at r l).
Proof.
  induction l as [|r' l IH]; simpl; intros Hs.
  - by repeat constructor.
  - destruct (msg_created_at r <? msg_created_at r') eqn:E.
    + apply Z.ltb_lt in E. apply StronglySorted_cons. split; [|done].
      apply StronglySorted_cons in Hs as [Hall _].
      apply Forall_cons. split; [unfold by_created_at; lia|].
      eapply Forall_impl; [exact Hall|]. unfold by_created_at. intros; lia.
    + apply Z.ltb_ge in E. apply StronglySorted_cons in Hs as [Hall Hs].
      apply StronglySorted_cons. split; [|by apply IH].
      rewrite insert_by_created_at_perm. by apply Forall_cons.
Qed.

Lemma order_by_created_at_sorted l : StronglySorted by_created_at (order_by_created_at l).
Proof.
  induction l as [|r l IH]; simpl; [constructor|]. by apply insert_by_created_at_sorted.
Qed.





Lemma answers_second d : answers 2 d → default false (head (tail (faults d))) = false.
Proof.
  intros H. apply (answers_head 0 (set_faults (tail (faults d)) d)).
  by apply (answers_next 1 d).
Qed.

Lemma answers_third d :
  answers 3 d → default false (head (tail (tail (faults d)))) = false.
Proof.
  intros H. apply (answers_second (set_faults (tail (faults d)) d)).
  by apply (answers_next 2 d).
Qed.

Section ListingProofs.

Variable json_Marshal : sseEvent → Bytes.
Variable Atoi : string → Z.

(** What [GetMessages] answers to a participant while the store answers. *)
Lemma GetMessages_success c v row w :
  ctx_user c = Some v → answers 2 (db w) →
  find_conversation (Atoi (ctx_params_id c)) (db w) = Some row →
  is_participant v row →
  GetMessages Atoi c w =
  Done (success (MessagesData
          (order_by_created_at
             (filter (λ r, msg_conversation_id r = Atoi (ctx_params_id c))
                     (messages (db w))))))
       (set_db (set_faults (tail (tail (faults (db w)))) (db w)) w).
Proof.
  intros Hu Hans Hfind Hpart. unfold GetMessages, bind. rewrite Hu.
  rewrite with_db_Done, query_participants_spec, (answers_head _ _ Hans), Hfind.
  cbn [fst snd].
  replace (bool_decide (v ≠ conv_buyer_id row) && bool_decide (v ≠ conv_seller_id row))
    with false.
  - rewrite with_db_Done, query_messages_spec. cbn [fst snd db set_db faults set_faults].
    by rewrite (answers_second _ Hans).
  - symmetry. apply andb_false_iff.
    destruct Hpart as [->| ->]; [left|right]; by apply bool_decide_eq_false_2; intros ?.
Qed.

(** X10: while the store answers, [GetMessages] gives a participant of
    the conversation exactly the message rows of that conversation, each
    as often as it is stored, ordered by creation time, oldest first. *)
Theorem GetMessages_lists_conversation_in_order c v row w :
  ctx_user c = Some v → answers 2 (db w) →
  find_conversation (Atoi (ctx_params_id c)) (db w) = Some row →
  is_participant v row →
  ∃ l w', GetMessages Atoi c w = Done (success (MessagesData l)) w'
    ∧ l ≡ₚ filter (λ r, msg_conversation_id r = Atoi (ctx_params_id c)) (messages (db w))
    ∧ StronglySorted by_created_at l
    ∧ (∀ m, m ∈ l ↔ m ∈ messages (db w) ∧ msg_conversation_id m = Atoi (ctx_params_id c))
    ∧ same_tables (db w) (db w').
Proof.
  intros Hu Hans Hfind Hpart. eexists _, _.
  split; [by apply (GetMessages_success c v row w)|].
  split_and!; [apply order_by_created_at_perm|apply order_by_created_at_sorted| |done].
  intros m. rewrite order_by_created_at_perm, list_elem_of_filter. tauto.
Qed.

(** X11: whatever the store does, a message row that [GetMessages] puts in
    its response belongs to the requested conversation, and the requester
    is authenticated and is the buyer or the seller of that conversation;
    the call changes no table, no channel and no subscriber list. *)
Theorem GetMessages_discloses_only_to_participants c r w w' :
  GetMessages Atoi c w = Done r w' →
  (∀ m, m ∈ disclosed_messages r →
     ∃ v row, ctx_user c = Some v
       ∧ find_conversation (Atoi (ctx_params_id c)) (db w) = Some row
       ∧ is_participant v row
       ∧ m ∈ messages (db w)
       ∧ msg_conversation_id m = Atoi (ctx_params_id c))
  ∧ same_tables (db w) (db w')
  ∧ heap w' = heap w ∧ userStreams_m w' = userStreams_m w ∧ trace w' = trace w.
Proof.
  unfold GetMessages. intros Hrun.
  destruct (ctx_user c) as [v|];
    [|injection Hrun as <- <-; split; [by intros m ?%elem_of_nil|done]].
  unfold bind in Hrun. rewrite with_db_Done, query_participants_spec in Hrun.
  cbn [fst snd] in Hrun.
  destruct (default false (head (faults (db w))));
    [injection Hrun as <- <-; split; [by intros m ?%elem_of_nil|done]|].
  destruct (find_conversation (Atoi (ctx_params_id c)) (db w)) as [row|] eqn:Hfind;
    [|injection Hrun as <- <-; split; [by intros m ?%elem_of_nil|done]].
  destruct (bool_decide (v ≠ conv_buyer_id row) && bool_decide (v ≠ conv_seller_id row))
    eqn:Hpart;
    [injection Hrun as <- <-; split; [by intros m ?%elem_of_nil|done]|].
  assert (Hin : is_participant v row).
  { apply andb_false_iff in Hpart as [H|H]; apply bool_decide_eq_false in H;
      apply dec_stable in H; [by left|by right]. }
  rewrite with_db_Done, query_messages_spec in Hrun.
  cbn [fst snd db set_db faults set_faults] in Hrun.
  destruct (default false (head (tail (faults (db w)))));
    injection Hrun as <- <-; (split; [|done]).
  - by intros m ?%elem_of_nil.
  - intros m Hm. cbn [disclosed_messages success Data_] in Hm.
    rewrite order_by_created_at_perm in Hm. apply list_elem_of_filter in Hm as [Hc Hm].
    by exists v, row.
Qed.


End ListingProofs.

Section ConversationListing.

Variable conv_created_at : ConversationRow → Time.
Variable conv_updated_at : ConversationRow → Time.


End ConversationListing.

(** * Conversations and messages in the store *)

Lemma find_by_unique_id rows r :
  NoDup (conv_id <$> rows) → r ∈ rows →
  find (λ x, bool_decide (conv_id x = conv_id r)) rows = Some r.
Proof.
  induction rows as [|x rows IH]; intros Hnd Hin; [by apply elem_of_nil in Hin|].
  rewrite fmap_cons in Hnd. apply NoDup_cons in Hnd as [Hx Hnd]. simpl.
  apply elem_of_cons in Hin as [->|Hin].
  - by rewrite bool_decide_eq_true_2.
  - rewrite bool_decide_eq_false_2; [by apply IH|].
    intros Heq. apply Hx. rewrite Heq. apply list_elem_of_fmap. by exists r.
Qed.

Section StoreProofs.

Variable json_Marshal : sseEvent → Bytes.

(** X14: a conversation that [ensureConversation] has returned can be
    resolved: with row ids unique and a store that answers, the id it
    returns for (product, buyer, seller) is one for which
    [getConversationParticipants] yields that buyer and that seller. *)
Theorem ensured_conversation_resolves p b s id w w1 :
  store_wf (db w) → answers 3 (db w) →
  ensureConversation p b s w = Done (id, None) w1 →
  ∃ w2, getConversationParticipants id w1 = Done [b; s] w2.
Proof.
  intros Hwf Hans Hcall. rewrite getConversationParticipants_spec.
  destruct (find (triple_matches p b s) (conversations (db w))) as [r|] eqn:Hfind.
  - rewrite (ensureConversation_found p b s w r) in Hcall;
      [|by apply (answers_le 1 3); [lia|]|done].
    injection Hcall as <- <-. cbn [db set_db faults set_faults].
    rewrite (answers_second (db w)) by (apply (answers_le 2 3); [lia|done]).
    apply find_elem_of in Hfind as [Hin Hr]. apply triple_matches_spec in Hr as (_ & <- & <-).
    unfold find_conversation. cbn [conversations set_faults].
    rewrite (find_by_unique_id _ r (swf_conv_nodup _ Hwf) Hin). by eexists.
  - destruct (ensureConversation_inserts p b s w) as (w1' & Hc1 & Hrows & _ & Hf & _);
      [by apply (answers_le 2 3); [lia|]|done|].
    rewrite Hc1 in Hcall. injection Hcall as <- <-.
    rewrite Hf, (answers_third (db w) Hans).
    unfold find_conversation. rewrite Hrows, find_app_None.
    + simpl. rewrite bool_decide_eq_true_2 by done. by eexists.
    + match goal with |- ?lhs = None => destruct lhs as [r|] eqn:E; [|done] end.
      apply find_elem_of in E as [Hin Heq]. apply bool_decide_eq_true in Heq.
      apply (swf_conv_fresh _ Hwf) in Hin. lia.
Qed.

(** X15: [ensureConversation] inserts whenever its lookup returns an error,
    not only when no row matches: if the store fails on the lookup and
    answers the insert, a second row for a triple that already has one is
    added and the new id is returned, so the triple is no longer unique. *)
Theorem ensureConversation_duplicates_when_lookup_fails p b s w fs r :
  faults (db w) = true :: false :: fs →
  find (triple_matches p b s) (conversations (db w)) = Some r →
  ∃ w', ensureConversation p b s w = Done (next_conversation_id (db w), None) w'
    ∧ conversations (db w') = conversations (db w) ++
        [{| conv_id := next_conversation_id (db w); conv_product_id := p;
            conv_buyer_id := b; conv_seller_id := s |}]
    ∧ ¬ triples_unique (conversations (db w')).
Proof.
  intros Hf Hfind. unfold ensureConversation, bind.
  rewrite with_db_Done, query_conversation_id_spec, Hf.
  change (default false (head (true :: false :: fs))) with true. cbn [fst snd tail].
  rewrite with_db_Done. unfold exec_insert_conversation. rewrite statement_spec.
  cbn [db set_db faults set_faults].
  change (default false (head (false :: fs))) with false. cbn [fst snd].
  eexists. split; [reflexivity|]. cbn [db set_db conversations next_conversation_id set_faults].
  split; [done|]. intros Hu.
  apply find_elem_of in Hfind as [Hin Hr]. apply triple_matches_spec in Hr as (Hp & Hb & Hs).
  apply list_elem_of_lookup in Hin as [i Hi].
  assert (i = length (conversations (db w))) as Heq.
  { apply (Hu i (length (conversations (db w))) r
             {| conv_id := next_conversation_id (db w); conv_product_id := p;
                conv_buyer_id := b; conv_seller_id := s |}).
    - by apply lookup_app_l_Some.
    - rewrite lookup_app_r by lia. by rewrite Nat.sub_diag.
    - done.
    - done.
    - done. }
  apply lookup_lt_Some in Hi. lia.
Qed.


End StoreProofs.

(** * Who a handler reaches, and what it stores *)

Section FanoutProofs.

Variable json_Marshal : sseEvent → Bytes.

(** A fan-out leaves the channels of the users it does not name alone. *)
Lemma fanout_spares_others (ps : list Z) evt w w' v ch q :
  bus_wf w →
  for_each ps (λ pid, publishToUser json_Marshal pid evt) w = Done tt w' →
  v ∉ ps → ch ∈ subs_of w v → heap w !! ch = Some q →
  heap w' !! ch = Some q.
Proof.
  intros Hwf Hrun Hv Hin Hq.
  destruct (publish_each_delivers json_Marshal ps evt w) as (w'' & Hpub & _ & _ & _ & Hh).
  { intros u x _ Hx. apply (wf_open w Hwf u x Hx). }
  assert (w'' = w') as -> by congruence.
  destruct (Hh ch q Hq) as (k & Hk & Hnot & _).
  rewrite Hk, Hnot; [by rewrite push_0|].
  intros (u & Hu & Hx). apply Hv.
  by rewrite (wf_owner w Hwf v u ch Hin Hx).
Qed.

Lemma saveMessage_frame cid u content w r w' :
  saveMessage cid u content w = Done r w' →
  w' = set_db (db w') w ∧ conversations (db w') = conversations (db w).
Proof.
  intros Hs. split.
  - by destruct (saveMessage_kept (λ _, True) (λ _ _ _, I) (λ _ _ _ _ _, I)
                   cid u content w r w' Hs I).
  - by destruct (saveMessage_conversations cid u content w r w' Hs).
Qed.

(** X17: whatever the store does, [SendMessage] queues nothing on the
    channels of a user who is neither the buyer nor the seller of the
    conversation the request names: the event of a conversation never
    reaches an outsider's stream. *)
Theorem SendMessage_reaches_only_participants c r w w' v ch q :
  bus_wf w → SendMessage json_Marshal c w = Done r w' →
  (∀ p row, ctx_body c = Some p →
     find_conversation (sm_ConversationID p) (db w) = Some row →
     ¬ is_participant v row) →
  ch ∈ subs_of w v → heap w !! ch = Some q →
  heap w' !! ch = Some q.
Proof.
  intros Hwf Hrun Hout Hin Hq. unfold SendMessage in Hrun.
  destruct (ctx_user c) as [u|]; [|by injection Hrun as _ <-].
  destruct (ctx_body c) as [p|]; [|by injection Hrun as _ <-].
  destruct (_ || _); [by injection Hrun as _ <-|].
  unfold bind at 1 in Hrun.
  destruct (saveMessage _ _ _ w) as [[[msgID createdAt] err] w1|] eqn:Hs; [|done].
  apply saveMessage_frame in Hs as [Hw1 Hconv].
  destruct err; [injection Hrun as _ <-; by rewrite Hw1|].
  unfold bind at 1 in Hrun. rewrite getConversationParticipants_spec in Hrun.
  unfold bind in Hrun.
  destruct (for_each _ _ _) as [[] w3|] eqn:Hpub; [|done].
  injection Hrun as _ <-.
  assert (Hwf1 : bus_wf w1) by (rewrite Hw1; by apply bus_wf_set_db).
  assert (Hin1 : ch ∈ subs_of w1 v) by (rewrite Hw1; exact Hin).
  assert (Hq1 : heap w1 !! ch = Some q) by (rewrite Hw1; exact Hq).
  eapply (fanout_spares_others _ _ _ _ v ch q) in Hpub;
    [done| | |exact Hin1|exact Hq1].
  - by apply bus_wf_set_db.
  - destruct (default false (head (faults (db w1)))); [apply not_elem_of_nil|].
    assert (Hfc : find_conversation (sm_ConversationID p) (db w1)
                  = find_conversation (sm_ConversationID p) (db w))
      by (unfold find_conversation; by rewrite Hconv).
    rewrite Hfc. destruct (find_conversation (sm_ConversationID p) (db w)) as [row|] eqn:Hfind;
      [|apply not_elem_of_nil].
    specialize (Hout p row eq_refl Hfind).
    rewrite !not_elem_of_cons. split_and!; [| |apply not_elem_of_nil].
    + intros ->. apply Hout. by left.
    + intros ->. apply Hout. by right.
Qed.

(** X18: whatever the store does, [Typing] changes no table, and queues
    nothing on the channels of the caller or of a user who is neither the
    buyer nor the seller of the conversation the request names. *)
Theorem Typing_reaches_only_other_participants c r w w' :
  bus_wf w → Typing json_Marshal c w = Done r w' →
  conversations (db w') = conversations (db w)
  ∧ messages (db w') = messages (db w)
  ∧ ∀ v ch q,
      ctx_user c = Some v
      ∨ (∀ p row, ctx_body c = Some p →
           find_conversation (ty_ConversationID p) (db w) = Some row →
           v ≠ conv_buyer_id row ∧ v ≠ conv_seller_id row) →
      ch ∈ subs_of w v → heap w !! ch = Some q →
      heap w' !! ch = Some q.
Proof.
  intros Hwf Hrun. unfold Typing in Hrun.
  destruct (ctx_user c) as [u|] eqn:Hu; [|by injection Hrun as _ <-].
  destruct (ctx_body c) as [p|]; [|by injection Hrun as _ <-].
  unfold bind at 1 in Hrun. rewrite getConversationParticipants_spec in Hrun.
  unfold bind in Hrun. rewrite for_each_skip in Hrun.
  destruct (for_each _ _ _) as [[] w3|] eqn:Hpub; [|done].
  injection Hrun as _ <-.
  pose proof (for_each_publish_kept json_Marshal _ _ _ _ Hpub) as (_ & Hdb & _).
  split; [by rewrite Hdb|]. split; [by rewrite Hdb|].
  intros v ch q Hout Hin Hq.
  eapply (fanout_spares_others _ _ _ _ v ch q) in Hpub; [done| | |done|done].
  - by apply bus_wf_set_db.
  - intros [Hne Hv]%list_elem_of_filter. destruct Hout as [[= ->]|Hout]; [done|].
    destruct (default false (head (faults (db w)))); [by apply elem_of_nil in Hv|].
    destruct (find_conversation (ty_ConversationID p) (db w)) as [row|] eqn:Hfind;
      [|by apply elem_of_nil in Hv].
    destruct (Hout p row eq_refl Hfind) as [Hb Hs].
    apply elem_of_cons in Hv as [->|Hv]; [done|].
    by apply list_elem_of_singleton in Hv as ->.
Qed.



End FanoutProofs.

(** * The further theorems at work on the example world *)

Lemma example_world_reachable : reachable example_marshal example_atoi example_world.
Proof.
  refine (reachable_step _ _ _ _ _ (step_register _ _ 2 _)).
  refine (reachable_step _ _ _ _ _ (step_register _ _ 2 _)).
  refine (reachable_step _ _ _ _ _ (step_register _ _ 1 _)).
  apply reachable_init.
Qed.

Lemma example_store_wf : store_wf (db example_world).
Proof.
  split.
  - intros r Hr. apply list_elem_of_singleton in Hr as ->. simpl. lia.
  - apply NoDup_singleton.
  - apply example_store_fresh.
  - apply NoDup_nil_2.
Qed.

Lemma register_hands_out_fresh_channel_witness :
  bus_wf example_world
  ∧ subs_of (register 1 example_world).2 1 = [0%nat; 3%nat].
Proof.
  split; [apply example_world_wf|].
  destruct (register_hands_out_fresh_channel 1 example_world example_world_wf)
    as (_ & Hsubs & _).
  exact Hsubs.
Defined.

Lemma register_then_deregister_witness :
  subs_of (run_ops [Register 2; Deregister 2 3%nat] example_world) 2 = [1%nat; 2%nat].
Proof. exact (register_then_deregister 2 example_world 2 example_world_wf). Defined.

Lemma cleanup_unlinks_and_closes_witness :
  (1%nat ∈ subs_of example_world 2)
  ∧ ∃ w' q, cleanup 2 1%nat example_world = Done tt w'
            ∧ heap w' !! 1%nat = Some {| buf := buf q; cap := cap q; closed := true |}.
Proof.
  assert (Hin : 1%nat ∈ subs_of example_world 2) by (apply elem_of_cons; by left).
  split; [exact Hin|].
  destruct (cleanup_unlinks_and_closes 2 1%nat example_world example_world_wf Hin)
    as (w' & q & Hc & _ & _ & Hq & _).
  exists w', q. split; [exact Hc|exact Hq].
Defined.


Lemma Stream_requires_identity_witness :
  Stream example_auth anonymous_stream_ctx example_world
  = Done (inl ErrUnauthorized) example_world.
Proof.
  apply (Stream_requires_identity example_auth anonymous_stream_ctx example_world).
  - reflexivity.
  - left. reflexivity.
Defined.

Lemma Stream_returns_deregistered_witness :
  ∃ w', Stream example_auth token_stream_ctx example_world = Done (inr 3%nat) w'
        ∧ (∀ u', subs_of w' u' = subs_of example_world u').
Proof.
  destruct (Stream_returns_deregistered example_auth token_stream_ctx 2 example_world 0
              example_world_wf) as (w' & Hs & Hsubs & _).
  - right. split; [reflexivity|]. split; [discriminate|reflexivity].
  - exists w'. split; [exact Hs|exact Hsubs].
Defined.

Lemma publish_burst_keeps_oldest_witness :
  ∃ w', publish_all example_marshal 2 example_events example_world = Done tt w'
        ∧ heap w' !! 1%nat
          = Some {| buf := example_marshal <$> example_events; cap := 32; closed := false |}.
Proof.
  destruct (publish_burst_keeps_oldest example_marshal 2 example_events example_world
              1%nat (make_chan 32) example_world_wf)
    as (w' & Hp & Hq & _).
  - apply elem_of_cons. by left.
  - reflexivity.
  - simpl. lia.
  - exists w'. split; [exact Hp|exact Hq].
Defined.


Lemma reachable_buffers_bounded_witness :
  reachable example_marshal example_atoi example_world ∧ buffers_bounded example_world.
Proof.
  split; [apply example_world_reachable|].
  apply (reachable_buffers_bounded example_marshal example_atoi example_world).
  apply example_world_reachable.
Defined.

Lemma steps_keep_row_ids_unique_witness :
  store_wf (db (register 1 example_world).2).
Proof.
  apply (steps_keep_row_ids_unique example_marshal example_atoi example_world).
  - apply rtc_once. apply step_register.
  - apply example_store_wf.
Defined.

Lemma GetMessages_lists_conversation_in_order_witness :
  ∃ l w', GetMessages example_atoi seller_get_ctx example_world_after_send
          = Done (success (MessagesData l)) w'
          ∧ StronglySorted by_created_at l.
Proof.
  destruct (GetMessages_lists_conversation_in_order example_atoi seller_get_ctx 2
              example_conversation example_world_after_send)
    as (l & w' & Hg & _ & Hs & _).
  - reflexivity.
  - apply no_faults_answers. vm_compute. reflexivity.
  - vm_compute. reflexivity.
  - right. reflexivity.
  - exists l, w'. split; [exact Hg|exact Hs].
Defined.

Lemma example_get_messages_outcome :
  GetMessages example_atoi stranger_get_ctx example_world_after_send
  = Done ErrForbidden
      (world_of (GetMessages example_atoi stranger_get_ctx example_world_after_send)
         example_world).
Proof. vm_compute. reflexivity. Qed.

Lemma GetMessages_discloses_only_to_participants_witness :
  heap (world_of (GetMessages example_atoi stranger_get_ctx example_world_after_send)
          example_world)
  = heap example_world_after_send.
Proof.
  destruct (GetMessages_discloses_only_to_participants example_atoi stranger_get_ctx
              _ example_world_after_send _ example_get_messages_outcome)
    as (_ & _ & Hheap & _).
  exact Hheap.
Defined.



Lemma ensured_conversation_resolves_witness :
  ∃ w2, getConversationParticipants 1
          (world_of (ensureConversation 5 1 2 example_world) example_world)
        = Done [1; 2] w2.
Proof.
  apply (ensured_conversation_resolves 5 1 2 1 example_world).
  - apply example_store_wf.
  - apply example_store_answers.
  - vm_compute. reflexivity.
Defined.

Lemma ensureConversation_duplicates_when_lookup_fails_witness :
  ∃ w', ensureConversation 5 1 2 faulty_world = Done (2, None) w'
        ∧ ¬ triples_unique (conversations (db w')).
Proof.
  destruct (ensureConversation_duplicates_when_lookup_fails 5 1 2 faulty_world []
              example_conversation eq_refl eq_refl) as (w' & He & _ & Hdup).
  exists w'. split; [exact He|exact Hdup].
Defined.


Lemma outsider_world_wf : bus_wf outsider_world.
Proof. apply bus_wf_register, example_world_wf. Qed.

Lemma outsider_send_succeeds :
  SendMessage example_marshal example_send_ctx outsider_world
  = Done (success NoData) outsider_world_after_send.
Proof. vm_compute. reflexivity. Qed.

Lemma outsider_typing_succeeds :
  Typing example_marshal example_typing_ctx outsider_world
  = Done (success NoData) outsider_world_after_typing.
Proof. vm_compute. reflexivity. Qed.

(** User 1 sends on conversation 1 (buyer 1, seller 2): the channels of
    the buyer and of the seller get the event, the channel of user 3 does
    not. *)
Lemma SendMessage_reaches_only_participants_witness :
  heap outsider_world_after_send !! 3%nat = Some (make_chan 32)
  ∧ heap outsider_world_after_send !! 1%nat
    = Some {| buf := [example_marshal (message_event 1 1 1 "hi" 100)];
              cap := 32; closed := false |}.
Proof.
  split; [|vm_compute; reflexivity].
  apply (SendMessage_reaches_only_participants example_marshal example_send_ctx
           (success NoData) outsider_world outsider_world_after_send 3 3%nat).
  - apply outsider_world_wf.
  - apply outsider_send_succeeds.
  - intros p row [= <-] Hfind. vm_compute in Hfind. injection Hfind as <-.
    intros [H|H]; discriminate H.
  - apply elem_of_cons. left. reflexivity.
  - reflexivity.
Defined.

(** User 1 (the buyer) types on conversation 1: the seller's channels get
    the event, the caller's channel and the channel of user 3 do not. *)
Lemma Typing_reaches_only_other_participants_witness :
  heap outsider_world_after_typing !! 0%nat = Some (make_chan 32)
  ∧ heap outsider_world_after_typing !! 3%nat = Some (make_chan 32)
  ∧ heap outsider_world_after_typing !! 1%nat
    = Some {| buf := [example_marshal (typing_event 1 1)]; cap := 32; closed := false |}
  ∧ messages (db outsider_world_after_typing) = messages (db outsider_world).
Proof.
  destruct (Typing_reaches_only_other_participants example_marshal example_typing_ctx
              (success NoData) outsider_world outsider_world_after_typing
              outsider_world_wf outsider_typing_succeeds) as (_ & Hmsg & Hspared).
  split_and!; [| |vm_compute; reflexivity|exact Hmsg].
  - apply (Hspared 1 0%nat (make_chan 32)).
    + left. reflexivity.
    + apply elem_of_cons. left. reflexivity.
    + reflexivity.
  - apply (Hspared 3 3%nat (make_chan 32)).
    + right. intros p row [= <-] Hfind. vm_compute in Hfind. injection Hfind as <-.
      split; discriminate.
    + apply elem_of_cons. left. reflexivity.
    + reflexivity.
Defined.


